(** * Image_Enhancement_Tool: a model of [MainCode.py]

    The program is an interactive editor: it loads an image, lets the user
    apply seven adjustments, show the image and save it.  Every adjustment
    is a short chain of calls into Pillow, NumPy, scikit-image and OpenCV.

    The model keeps what the Python code has:
    - objects live in a heap and are named by references, so that copying,
      aliasing and the one in-place assignment of [apply_hist_eq] are
      visible;
    - [input], [print], [Image.show] and [Image.save] act on a console and
      leave a trace of events;
    - exceptions are results; an exception nobody catches ends the run.

    8-bit channel values are integers with their range written out,
    NumPy [float64] values are real numbers, and the numbers typed by the
    user are rationals (every finite float is one). *)

From Stdlib Require Import ZArith QArith Qround Reals Qreals Lqa Lra Lia.
From Stdlib Require Import String Ascii List.
From stdpp Require Import base option list strings.
Import ListNotations.

Close Scope R_scope.
Close Scope Q_scope.
Open Scope string_scope.
Open Scope list_scope.
Open Scope Z_scope.

(** ** Pixels and heap objects *)

Definition pixel : Type := Z * Z * Z.
Definition fpixel : Type := R * R * R.

Definition pmap {A B : Type} (f : A -> B) (p : A * A * A) : B * B * B :=
  let '(a, b, c) := p in (f a, f b, f c).

Definition u8 (v : Z) : Prop := 0 <= v <= 255.
Definition u8_pixel (p : pixel) : Prop :=
  let '(a, b, c) := p in u8 a /\ u8 b /\ u8 c.

(** What a reference can point to.  Sizes are (width, height); the pixel
    list is row-major. *)
Inductive obj : Type :=
| PILImage (w h : nat) (px : list pixel)   (* PIL.Image.Image, mode RGB *)
| U8Array (w h : nat) (px : list pixel)    (* ndarray uint8, shape (h, w, 3) *)
| U8Plane (w h : nat) (vs : list Z)        (* ndarray uint8, shape (h, w) *)
| F64Array (w h : nat) (px : list fpixel). (* ndarray float64, shape (h, w, 3) *)

(** References are positions in the heap. *)
Abbreviation loc := nat (only parsing).
Abbreviation heap := (list obj) (only parsing).


(** ** Exceptions, console events and the state of a run *)

Inductive exn : Type :=
| ValueError (msg : string)
| TypeError (msg : string)
| EOFError
| OtherError (msg : string).

(** [str(e)] *)
Definition str_exn (e : exn) : string :=
  match e with
  | ValueError m | TypeError m | OtherError m => m
  | EOFError => "EOF when reading a line"
  end.

Inductive optval : Type :=
| OInt (n : Z)
| OBool (b : bool).

Definition options : Type := list (string * optval).

Inductive event : Type :=
| Prompt (s : string)                                   (* input(s) writes s *)
| Print (s : string)                                    (* print(s) *)
| Show (w h : nat) (px : list pixel)                    (* image.show() *)
| Save (path : string) (opts : options)
       (w h : nat) (px : list pixel).                    (* image.save(path, **opts) *)

Record Sys : Type := mkSys {
  mem : heap;              (* live objects *)
  stdin : list string;     (* lines not read yet *)
  out : list event         (* what happened so far, oldest first *)
}.

(** ** The monad: state of the run, and exceptions *)

Definition M (A : Type) : Type := Sys -> (exn + A) * Sys.

#[global] Instance M_ret : MRet M := fun A a s => (inr a, s).
#[global] Instance M_bind : MBind M := fun A B f m s =>
  match m s with
  | (inr a, s') => f a s'
  | (inl e, s') => (inl e, s')
  end.

Definition raise {A : Type} (e : exn) : M A := fun s => (inl e, s).

(** [try: m except Exception as e: handler e] *)
Definition try_except {A : Type} (m : M A) (handler : exn -> M A) : M A :=
  fun s =>
    match m s with
    | (inr a, s') => (inr a, s')
    | (inl e, s') => handler e s'
    end.

(** A new object goes to the end of the heap; its reference is new. *)
Definition push (s : Sys) (o : obj) : Sys :=
  mkSys (mem s ++ [o]) (stdin s) (out s).

Definition alloc (o : obj) : M loc :=
  fun s => (inr (length (mem s)), push s o).

Definition deref (l : loc) : M obj :=
  fun s =>
    match mem s !! l with
    | Some o => (inr o, s)
    | None => (inl (TypeError "dangling reference"), s)
    end.

(** In-place write into an existing object. *)
Definition assign (l : loc) (o : obj) : M unit :=
  fun s => (inr tt, mkSys (<[l := o]> (mem s)) (stdin s) (out s)).

Definition emit (e : event) : M unit :=
  fun s => (inr tt, mkSys (mem s) (stdin s) (out s ++ [e])).

(** [print(s)] *)
Definition print (s : string) : M unit := emit (Print s).

(** [sys.stdin.readline()] as [input] uses it: [EOFError] when the input is
    exhausted. *)
Definition read_line : M string :=
  fun s =>
    match stdin s with
    | line :: rest => (inr line, mkSys (mem s) rest (out s))
    | [] => (inl EOFError, s)
    end.

(** [input(prompt)]: writes the prompt, then reads one line. *)
Definition input (prompt : string) : M string :=
  _ ← emit (Prompt prompt); read_line.

Definition bad_type {A : Type} : M A := raise (TypeError "unexpected object").

(** ** Numeric kernels of the libraries, one value at a time

    These follow the documented behaviour of the library functions the
    program calls; the program itself contains no arithmetic.  They are
    written in exact arithmetic: a 64-bit float of NumPy is a real number,
    the 32-bit float of Pillow's blend a rational, and no operation
    rounds.  The parameters are the finite numbers; a [nan] or an
    infinity typed by the user is outside the model. *)

(** [skimage.img_as_float] on a [uint8] value. *)
Definition img_as_float_val (v : Z) : R := (IZR v / 255)%R.

(** [np.clip(x, lo, hi)] is [minimum(maximum(x, lo), hi)]. *)
Definition np_clip_val (lo hi x : R) : R := Rmin (Rmax x lo) hi.

(** [np.rint]: nearest integer, ties to even. *)
Definition rint (x : R) : Z :=
  let f := Zfloor x in
  let d := (x - IZR f)%R in
  if Rlt_dec d (1 / 2) then f
  else if Rlt_dec (1 / 2) d then f + 1
  else if Z.even f then f else f + 1.

(** [ndarray.astype(np.uint8)] on an integral value wraps modulo 256. *)
Definition astype_uint8 (z : Z) : Z := z mod 256.

(** [skimage.img_as_ubyte] on a float value it accepts: scale by 255,
    [rint], clip to the range of [uint8], cast.  The product is exact
    here; the library rounds it to a float before [rint], so at a product
    next to a half the library can store the other neighbour. *)
Definition img_as_ubyte_val (x : R) : Z :=
  astype_uint8 (Z.max 0 (Z.min 255 (rint (x * 255)%R))).

(** [img_as_ubyte] refuses a float image with a value outside [-1, 1]. *)
Definition in_signed_unit (x : R) : bool :=
  if Rle_dec (-1) x then (if Rle_dec x 1 then true else false) else false.

Definition fpixel_ok (p : fpixel) : bool :=
  let '(a, b, c) := p in in_signed_unit a && in_signed_unit b && in_signed_unit c.

(** [x ** g] of NumPy for [0 <= x] and [0 <= g]. *)
Definition np_power (x g : R) : R :=
  if Req_EM_T x 0 then (if Req_EM_T g 0 then 1%R else 0%R) else Rpower x g.

Definition np_log2 (x : R) : R := (ln x / ln 2)%R.

(** [skimage.exposure.adjust_gamma(image, gamma)] on a float image
    (scale 1, gain 1): [O = I ** gamma]. *)
Definition adjust_gamma_val (gamma x : R) : R := np_power x gamma.

(** [skimage.exposure.adjust_log(image, gain)] on a float image (scale 1):
    [O = gain * log2(1 + I)]. *)
Definition adjust_log_val (gain x : R) : R := (np_log2 (1 + x) * gain)%R.

(** C conversion of a float to an integer: towards zero. *)
Definition c_trunc (q : Q) : Z :=
  if Qle_bool 0 q then Qfloor q else Qceiling q.

(** [PIL.Image.blend(im1, im2, alpha)] on one channel of one pixel:
    [im1 + alpha * (im2 - im1)]; interpolation needs no clipping,
    extrapolation clips to [0, 255].  The sum is exact here; Pillow
    evaluates it in 32-bit floats with [alpha] rounded to one, so at a sum
    next to an integer Pillow can store the integer below or above. *)
Definition blend_val (alpha : Q) (v1 v2 : Z) : Z :=
  let t := (inject_Z v1 + alpha * (inject_Z v2 - inject_Z v1))%Q in
  if Qle_bool 0 alpha && Qle_bool alpha 1 then astype_uint8 (c_trunc t)
  else if Qle_bool t 0 then 0
  else if Qle_bool 255 t then 255
  else astype_uint8 (c_trunc t).

Definition blend_pixel (alpha : Q) (p1 p2 : pixel) : pixel :=
  let '(r1, g1, b1) := p1 in
  let '(r2, g2, b2) := p2 in
  (blend_val alpha r1 r2, blend_val alpha g1 g2, blend_val alpha b1 b2).

(** The whole image; alpha 0 and alpha 1 return a copy of an operand
    (Pillow tests the 32-bit [alpha], so it also copies for a factor that
    rounds to 0 or to 1). *)
Definition blend_pixels (alpha : Q) (px1 px2 : list pixel) : list pixel :=
  if Qeq_bool alpha 0 then px1
  else if Qeq_bool alpha 1 then px2
  else zip_with (blend_pixel alpha) px1 px2.

(** ** Library kernels taken as given

    The colour conversions and the histogram equalisation of OpenCV, and
    the grey conversion, the mean and the smoothing filter of Pillow, are
    black boxes.  What is known of them: they work pixel by pixel (or
    through a look-up table computed from the whole channel), and what
    they write into an 8-bit buffer is an 8-bit value. *)
Class ImagingLib : Type := {
  cvt_RGB2YCrCb : pixel -> pixel;        (* cv2.COLOR_RGB2YCrCb, one pixel *)
  cvt_YCrCb2RGB : pixel -> pixel;        (* cv2.COLOR_YCrCb2RGB, one pixel *)
  equalize_lut : list Z -> Z -> Z;       (* look-up table of cv2.equalizeHist *)
  convert_L : pixel -> Z;                (* Image.convert("L"), one pixel *)
  stat_mean : list Z -> Z;               (* int(ImageStat.Stat(im).mean[0] + 0.5) *)
  filter_SMOOTH : nat -> nat -> list pixel -> list pixel;
                                         (* Image.filter(ImageFilter.SMOOTH) *)
  cvt_YCrCb2RGB_u8 : forall p, u8_pixel (cvt_YCrCb2RGB p);
  convert_L_u8 : forall p, u8 (convert_L p);
  stat_mean_u8 : forall vs, u8 (stat_mean vs);
  filter_SMOOTH_u8 : forall w h px, Forall u8_pixel (filter_SMOOTH w h px)
}.

(** What the run finds outside the program: how [float] reads a line, what
    [Image.open(path).convert('RGB')] gives, and whether [Image.save]
    fails. *)
Class Runtime : Type := {
  float_of_string : string -> exn + Q;
  open_rgb : string -> exn + (nat * nat * list pixel);
  save_error : string -> options -> option exn
}.

Inductive ColorCode : Type := COLOR_RGB2YCrCb | COLOR_YCrCb2RGB.

Record Enhancer : Type := mkEnhancer {
  enh_image : loc;        (* self.image *)
  enh_degenerate : loc    (* self.degenerate *)
}.

Section Library.
Context {lib : ImagingLib}.

(** *** NumPy and scikit-image *)

(** [np.array(image)]: a new array with the pixels of the image. *)
Definition np_array (image : loc) : M loc :=
  o ← deref image;
  match o with
  | PILImage w h px => alloc (U8Array w h px)
  | _ => bad_type
  end.

(** [img_as_float(arr)] *)
Definition img_as_float (arr : loc) : M loc :=
  o ← deref arr;
  match o with
  | U8Array w h px => alloc (F64Array w h (map (pmap img_as_float_val) px))
  | _ => bad_type
  end.

(** [exposure.adjust_gamma(arr, gamma)] *)
Definition exposure_adjust_gamma (arr : loc) (gamma : Q) : M loc :=
  if Qlt_le_dec gamma 0
  then raise (ValueError "Gamma should be a non-negative real number.")
  else
    o ← deref arr;
    match o with
    | F64Array w h px =>
        alloc (F64Array w h (map (pmap (adjust_gamma_val (Q2R gamma))) px))
    | _ => bad_type
    end.

(** [exposure.adjust_log(arr, gain)] *)
Definition exposure_adjust_log (arr : loc) (gain : Q) : M loc :=
  o ← deref arr;
  match o with
  | F64Array w h px =>
      alloc (F64Array w h (map (pmap (adjust_log_val (Q2R gain))) px))
  | _ => bad_type
  end.

(** [np.clip(arr, lo, hi)] *)
Definition np_clip (arr : loc) (lo hi : R) : M loc :=
  o ← deref arr;
  match o with
  | F64Array w h px => alloc (F64Array w h (map (pmap (np_clip_val lo hi)) px))
  | _ => bad_type
  end.

(** [img_as_ubyte(arr)] *)
Definition img_as_ubyte (arr : loc) : M loc :=
  o ← deref arr;
  match o with
  | F64Array w h px =>
      if forallb fpixel_ok px
      then alloc (U8Array w h (map (pmap img_as_ubyte_val) px))
      else raise (ValueError "Images of type float must be between -1 and 1.")
  | _ => bad_type
  end.

(** [Image.fromarray(arr)] *)
Definition Image_fromarray (arr : loc) : M loc :=
  o ← deref arr;
  match o with
  | U8Array w h px => alloc (PILImage w h px)
  | _ => bad_type
  end.

(** *** OpenCV *)

Definition cvt (code : ColorCode) : pixel -> pixel :=
  match code with
  | COLOR_RGB2YCrCb => cvt_RGB2YCrCb
  | COLOR_YCrCb2RGB => cvt_YCrCb2RGB
  end.

(** [cv2.cvtColor(arr, code)] *)
Definition cv2_cvtColor (arr : loc) (code : ColorCode) : M loc :=
  o ← deref arr;
  match o with
  | U8Array w h px => alloc (U8Array w h (map (cvt code) px))
  | _ => bad_type
  end.

Definition channel0 (p : pixel) : Z := let '(a, _, _) := p in a.
Definition with_channel0 (v : Z) (p : pixel) : pixel :=
  let '(_, b, c) := p in (v, b, c).

(** [cv2.equalizeHist(arr[:, :, 0])]: the slice is a view of [arr]; the
    result is a new plane, every value sent through the look-up table of
    the channel. *)
Definition cv2_equalizeHist_channel0 (arr : loc) : M loc :=
  o ← deref arr;
  match o with
  | U8Array w h px =>
      let vs := map channel0 px in
      alloc (U8Plane w h (map (equalize_lut vs) vs))
  | _ => bad_type
  end.

(** [arr[:, :, 0] = plane]: writes channel 0 of [arr] in place. *)
Definition set_channel0 (arr plane : loc) : M unit :=
  a ← deref arr;
  p ← deref plane;
  match a, p with
  | U8Array w h px, U8Plane w' h' vs =>
      if decide (w = w' /\ h = h')
      then assign arr (U8Array w h (zip_with with_channel0 vs px))
      else raise (ValueError "could not broadcast input array")
  | _, _ => bad_type
  end.

(** *** Pillow *)

Definition grey (v : Z) : pixel := (v, v, v).

(** [Image.blend(im1, im2, alpha)] *)
Definition Image_blend (im1 im2 : loc) (alpha : Q) : M loc :=
  o1 ← deref im1;
  o2 ← deref im2;
  match o1, o2 with
  | PILImage w1 h1 px1, PILImage w2 h2 px2 =>
      if decide (w1 = w2 /\ h1 = h2)
      then alloc (PILImage w1 h1 (blend_pixels alpha px1 px2))
      else raise (ValueError "images do not match")
  | _, _ => bad_type
  end.

(** [ImageEnhance.Brightness(image)]: the degenerate image is black. *)
Definition ImageEnhance_Brightness (image : loc) : M Enhancer :=
  o ← deref image;
  match o with
  | PILImage w h px =>
      d ← alloc (PILImage w h (replicate (w * h) (grey 0)));
      mret (mkEnhancer image d)
  | _ => bad_type
  end.

(** [ImageEnhance.Contrast(image)]: a solid grey image at the mean of the
    grey version. *)
Definition ImageEnhance_Contrast (image : loc) : M Enhancer :=
  o ← deref image;
  match o with
  | PILImage w h px =>
      let mean := stat_mean (map convert_L px) in
      d ← alloc (PILImage w h (replicate (w * h) (grey mean)));
      mret (mkEnhancer image d)
  | _ => bad_type
  end.

(** [ImageEnhance.Sharpness(image)]: the smoothed image. *)
Definition ImageEnhance_Sharpness (image : loc) : M Enhancer :=
  o ← deref image;
  match o with
  | PILImage w h px =>
      d ← alloc (PILImage w h (filter_SMOOTH w h px));
      mret (mkEnhancer image d)
  | _ => bad_type
  end.

(** [ImageEnhance.Color(image)]: the grey version, back in RGB. *)
Definition ImageEnhance_Color (image : loc) : M Enhancer :=
  o ← deref image;
  match o with
  | PILImage w h px =>
      d ← alloc (PILImage w h (map (fun p => grey (convert_L p)) px));
      mret (mkEnhancer image d)
  | _ => bad_type
  end.

(** [enhancer.enhance(factor)] *)
Definition enhance (e : Enhancer) (factor : Q) : M loc :=
  Image_blend (enh_degenerate e) (enh_image e) factor.

End Library.

(** ** The program *)

Section Program.
Context {lib : ImagingLib} {rt : Runtime}.

(** [load_image(path)]: [Image.open(path).convert('RGB')] *)
Definition load_image (path : string) : M loc :=
  match open_rgb path with
  | inl e => raise e
  | inr (w, h, px) => alloc (PILImage w h px)
  end.

(** *** [save_image] *)

Definition is_upper (c : ascii) : bool :=
  (65 <=? nat_of_ascii c)%nat && (nat_of_ascii c <=? 90)%nat.

Definition lower_ascii (c : ascii) : ascii :=
  if is_upper c then ascii_of_nat (nat_of_ascii c + 32) else c.

(** [s.lower()] *)
Fixpoint lower (s : string) : string :=
  match s with
  | EmptyString => EmptyString
  | String c s' => String (lower_ascii c) (lower s')
  end.

(** [s.split(sep)] for a one-character separator: the pieces between the
    separators, never an empty list. *)
Fixpoint split (sep : ascii) (s : string) : list string :=
  match s with
  | EmptyString => [EmptyString]
  | String c s' =>
      if Ascii.eqb c sep then EmptyString :: split sep s'
      else
        match split sep s' with
        | piece :: pieces => String c piece :: pieces
        | [] => [String c EmptyString]
        end
  end.

(** [l[-1]] of a list that is not empty. *)
Definition last_piece (l : list string) : string := List.last l EmptyString.

Definition save_options (path : string) (quality : Z) : options :=
  let ext := lower (last_piece (split "." path)) in
  if String.eqb ext "jpg" || String.eqb ext "jpeg"
  then [("quality", OInt quality); ("optimize", OBool true);
        ("subsampling", OInt 0)]
  else if String.eqb ext "png"
  then [("compress_level", OInt 1)]
  else [].

(** [image.save(path, **options)] *)
Definition Image_save (image : loc) (path : string) (opts : options) : M unit :=
  o ← deref image;
  match o with
  | PILImage w h px =>
      match save_error path opts with
      | Some e => raise e
      | None => emit (Save path opts w h px)
      end
  | _ => bad_type
  end.

Definition save_image (image : loc) (path : string) (quality : Z) : M unit :=
  _ ← Image_save image path (save_options path quality);
  print ("Saved: " +:+ path).

(** The default of the [quality] parameter. *)
Definition default_quality : Z := 100.

(** *** The seven adjustments *)

Definition apply_gamma (image : loc) (gamma : Q) : M loc :=
  a ← np_array image;
  arr ← img_as_float a;
  corrected ← exposure_adjust_gamma arr gamma;
  corrected ← np_clip corrected 0 1;
  u ← img_as_ubyte corrected;
  Image_fromarray u.

Definition apply_hist_eq (image : loc) : M loc :=
  arr ← np_array image;
  ycrcb ← cv2_cvtColor arr COLOR_RGB2YCrCb;
  y ← cv2_equalizeHist_channel0 ycrcb;
  _ ← set_channel0 ycrcb y;
  rgb ← cv2_cvtColor ycrcb COLOR_YCrCb2RGB;
  Image_fromarray rgb.

Definition adjust_brightness (image : loc) (factor : Q) : M loc :=
  e ← ImageEnhance_Brightness image;
  enhance e factor.

Definition adjust_contrast (image : loc) (factor : Q) : M loc :=
  e ← ImageEnhance_Contrast image;
  enhance e factor.

Definition adjust_sharpness (image : loc) (factor : Q) : M loc :=
  e ← ImageEnhance_Sharpness image;
  enhance e factor.

Definition adjust_saturation (image : loc) (factor : Q) : M loc :=
  e ← ImageEnhance_Color image;
  enhance e factor.

Definition adjust_exposure (image : loc) (gain : Q) : M loc :=
  a ← np_array image;
  arr ← img_as_float a;
  exp ← exposure_adjust_log arr gain;
  exp ← np_clip exp 0 1;
  u ← img_as_ubyte exp;
  Image_fromarray u.

(** The seven adjustments under one name, as the menu numbers them. *)
Inductive Adjustment : Type :=
| Gamma (gamma : Q)
| HistEq
| Brightness (factor : Q)
| Contrast (factor : Q)
| Sharpness (factor : Q)
| Saturation (factor : Q)
| Exposure (gain : Q).

Definition adjust (a : Adjustment) (image : loc) : M loc :=
  match a with
  | Gamma gamma => apply_gamma image gamma
  | HistEq => apply_hist_eq image
  | Brightness factor => adjust_brightness image factor
  | Contrast factor => adjust_contrast image factor
  | Sharpness factor => adjust_sharpness image factor
  | Saturation factor => adjust_saturation image factor
  | Exposure gain => adjust_exposure image gain
  end.

(** The parameters the libraries accept: scikit-image refuses a negative
    gamma. *)
Definition accepted (a : Adjustment) : Prop :=
  match a with
  | Gamma gamma => (0 <= gamma)%Q
  | _ => True
  end.

(** *** The controller *)

(** [image.copy()] *)
Definition Image_copy (image : loc) : M loc :=
  o ← deref image;
  match o with
  | PILImage w h px => alloc (PILImage w h px)
  | _ => bad_type
  end.

(** [image.show()] *)
Definition Image_show (image : loc) : M unit :=
  o ← deref image;
  match o with
  | PILImage w h px => emit (Show w h px)
  | _ => bad_type
  end.

(** [float(s)] *)
Definition float (s : string) : M Q :=
  match float_of_string s with
  | inl e => raise e
  | inr q => mret q
  end.

Definition nl : string := String (ascii_of_nat 10) EmptyString.

Definition menu : string :=
  nl +:+ "1: Gamma " +:+ nl +:+ "2: HistEq " +:+ nl +:+ "3: Brightness " +:+ nl
     +:+ "4: Contrast " +:+ nl +:+ "5: Sharpness " +:+ nl +:+ "6: Saturation "
     +:+ nl +:+ "7: Exposure " +:+ nl +:+ "8: Show " +:+ nl +:+ "9: Save " +:+ nl
     +:+ "0: Exit".

(** The local variables of [main] that the loop updates. *)
Record Session : Type := mkSession {
  current : loc;
  modified : bool
}.

(** The [if]/[elif] chain of one pass, after the choice has been read and
    found different from ['0']. *)
Definition dispatch (choice : string) (ses : Session) : M Session :=
  if String.eqb choice "1" then
    s ← input "Gamma [1]: ";
    g ← float s;
    cur ← apply_gamma (current ses) g;
    mret (mkSession cur true)
  else if String.eqb choice "2" then
    cur ← apply_hist_eq (current ses);
    mret (mkSession cur true)
  else if String.eqb choice "3" then
    s ← input "Brightness [1]: ";
    f ← float s;
    cur ← adjust_brightness (current ses) f;
    mret (mkSession cur true)
  else if String.eqb choice "4" then
    s ← input "Contrast [1]: ";
    f ← float s;
    cur ← adjust_contrast (current ses) f;
    mret (mkSession cur true)
  else if String.eqb choice "5" then
    s ← input "Sharpness [1]: ";
    f ← float s;
    cur ← adjust_sharpness (current ses) f;
    mret (mkSession cur true)
  else if String.eqb choice "6" then
    s ← input "Saturation [1]: ";
    f ← float s;
    cur ← adjust_saturation (current ses) f;
    mret (mkSession cur true)
  else if String.eqb choice "7" then
    s ← input "Exposure [1]: ";
    g ← float s;
    cur ← adjust_exposure (current ses) g;
    mret (mkSession cur true)
  else if String.eqb choice "8" then
    _ ← Image_show (current ses);
    mret ses
  else if String.eqb choice "9" then
    if modified ses then
      path ← input "Save as: ";
      _ ← save_image (current ses) path default_quality;
      mret (mkSession (current ses) false)
    else
      _ ← print "Nothing to save.";
      mret ses
  else
    _ ← print "Invalid.";
    mret ses.

(** The two statements after the chain. *)
Definition confirm (ses : Session) : M unit :=
  if modified ses then
    _ ← print "Applied.";
    Image_show (current ses)
  else mret tt.

(** One pass of [while True]; [None] is [break]. *)
Definition iteration (ses : Session) : M (option Session) :=
  _ ← print menu;
  choice ← input "Choose: ";
  if String.eqb choice "0" then mret None
  else
    ses' ← dispatch choice ses;
    _ ← confirm ses';
    mret (Some ses').

(** The loop.  Every pass reads a line, so a number of passes above the
    number of lines left is never reached; [None] tells that the bound was
    too small. *)
Fixpoint main_loop (fuel : nat) (ses : Session) : M (option unit) :=
  match fuel with
  | O => mret None
  | S fuel' =>
      r ← iteration ses;
      match r with
      | None => mret (Some tt)
      | Some ses' => main_loop fuel' ses'
      end
  end.

Definition enough_fuel : M nat := fun s => (inr (S (length (stdin s))), s).

Definition main : M (option unit) :=
  path ← input "Path: ";
  r ← try_except (img ← load_image path; mret (Some img))
                 (fun e => _ ← print ("Error loading image: " +:+ str_exn e);
                           mret None);
  match r with
  | None => mret (Some tt)
  | Some img =>
      cur ← Image_copy img;
      fuel ← enough_fuel;
      main_loop fuel (mkSession cur false)
  end.

(** How the process ends: [main()] is the last statement of the script, so
    returning from it ends the interpreter with status 0; an exception that
    reaches the top level ends it with status 1. *)
Definition exit_status {A : Type} (r : exn + A) : Z :=
  match r with
  | inr _ => 0
  | inl _ => 1
  end.

End Program.

(** ** What the runs compute

    The pure functions and the states that the theorems speak of. *)

(** The state after a run that only allocated [os], in this order. *)
Definition pushes (s : Sys) (os : list obj) : Sys :=
  mkSys (mem s ++ os) (stdin s) (out s).

(** The state once the menu is printed and the choice is read. *)
Definition after_choice (s : Sys) (rest : list string) : Sys :=
  mkSys (mem s) rest (out s ++ [Print menu; Prompt "Choose: "]).

(** The console after more events. *)
Definition say (s : Sys) (evs : list event) : Sys :=
  mkSys (mem s) (stdin s) (out s ++ evs).

Definition digits : list string :=
  ["0"; "1"; "2"; "3"; "4"; "5"; "6"; "7"; "8"; "9"].

(** A heap with one image of one pixel, and nothing on the console. *)
Definition one_pixel (p : pixel) : Sys := mkSys [PILImage 1 1 [p]] [] [].

Definition unit_fpixel (p : fpixel) : Prop :=
  let '(a, b, c) := p in (0 <= a <= 1)%R /\ (0 <= b <= 1)%R /\ (0 <= c <= 1)%R.

(** The value [Image.blend] computes before it is stored. *)
Definition blend_exact (alpha : Q) (v1 v2 : Z) : Q :=
  (inject_Z v1 + alpha * (inject_Z v2 - inject_Z v1))%Q.

Definition normalized (px : list pixel) : list fpixel :=
  map (pmap img_as_float_val) px.
Definition clipped (fpx : list fpixel) : list fpixel :=
  map (pmap (np_clip_val 0 1)) fpx.
Definition to_ubyte (fpx : list fpixel) : list pixel :=
  map (pmap img_as_ubyte_val) fpx.

Definition gamma_floats (gamma : Q) (px : list pixel) : list fpixel :=
  map (pmap (adjust_gamma_val (Q2R gamma))) (normalized px).
Definition log_floats (gain : Q) (px : list pixel) : list fpixel :=
  map (pmap (adjust_log_val (Q2R gain))) (normalized px).

Section Denotations.
Context {lib : ImagingLib}.

(** The degenerate image each enhancer builds. *)
Definition degenerate_Brightness (w h : nat) (px : list pixel) : list pixel :=
  replicate (w * h) (grey 0).
Definition degenerate_Contrast (w h : nat) (px : list pixel) : list pixel :=
  replicate (w * h) (grey (stat_mean (map convert_L px))).
Definition degenerate_Sharpness (w h : nat) (px : list pixel) : list pixel :=
  filter_SMOOTH w h px.
Definition degenerate_Color (w h : nat) (px : list pixel) : list pixel :=
  map (fun p => grey (convert_L p)) px.

(** The Y, Cr, Cb pixels that [apply_hist_eq] hands to the conversion back
    to RGB: the luma through the look-up table of the whole luma channel,
    the chroma as it was. *)
Definition ycrcb_of (px : list pixel) : list pixel := map (cvt COLOR_RGB2YCrCb) px.
Definition equalized_plane (ycc : list pixel) : list Z :=
  map (equalize_lut (map channel0 ycc)) (map channel0 ycc).
Definition equalized_ycrcb (px : list pixel) : list pixel :=
  zip_with with_channel0 (equalized_plane (ycrcb_of px)) (ycrcb_of px).
Definition hist_eq_pixels (px : list pixel) : list pixel :=
  map (cvt COLOR_YCrCb2RGB) (equalized_ycrcb px).

(** The pixels of the image an accepted adjustment returns. *)
Definition adjusted_pixels (a : Adjustment) (w h : nat) (px : list pixel) : list pixel :=
  match a with
  | Gamma gamma => to_ubyte (clipped (gamma_floats gamma px))
  | HistEq => hist_eq_pixels px
  | Brightness f => blend_pixels f (degenerate_Brightness w h px) px
  | Contrast f => blend_pixels f (degenerate_Contrast w h px) px
  | Sharpness f => blend_pixels f (degenerate_Sharpness w h px) px
  | Saturation f => blend_pixels f (degenerate_Color w h px) px
  | Exposure gain => to_ubyte (clipped (log_floats gain px))
  end.

(** The objects an accepted adjustment allocates, the result last. *)
Definition adjust_allocs (a : Adjustment) (w h : nat) (px : list pixel) : list obj :=
  match a with
  | Gamma gamma =>
      [U8Array w h px; F64Array w h (normalized px);
       F64Array w h (gamma_floats gamma px);
       F64Array w h (clipped (gamma_floats gamma px));
       U8Array w h (to_ubyte (clipped (gamma_floats gamma px)))]
  | HistEq =>
      [U8Array w h px; U8Array w h (equalized_ycrcb px);
       U8Plane w h (equalized_plane (ycrcb_of px));
       U8Array w h (hist_eq_pixels px)]
  | Brightness f => [PILImage w h (degenerate_Brightness w h px)]
  | Contrast f => [PILImage w h (degenerate_Contrast w h px)]
  | Sharpness f => [PILImage w h (degenerate_Sharpness w h px)]
  | Saturation f => [PILImage w h (degenerate_Color w h px)]
  | Exposure gain =>
      [U8Array w h px; F64Array w h (normalized px);
       F64Array w h (log_floats gain px);
       F64Array w h (clipped (log_floats gain px));
       U8Array w h (to_ubyte (clipped (log_floats gain px)))]
  end.

End Denotations.


(** ** Stored values and the numbers they stand for

    The model computes in exact arithmetic where the libraries compute in
    floating point (NumPy and scikit-image in 64-bit floats, Pillow's
    blend in 32-bit floats).  A float of the library can differ from the
    exact number in its last bits, and the 8-bit value stored from it can
    be the other neighbouring integer where the exact number lies at a
    rounding boundary.  The relations below say what a stored value is
    without fixing that last choice. *)

(** A relation on values, channel by channel. *)
Definition on_channels {A B : Type} (P : A -> B -> Prop)
    (p : A * A * A) (q : B * B * B) : Prop :=
  let '(a, b, c) := p in
  let '(a', b', c') := q in
  P a a' /\ P b b' /\ P c c'.


(** The 8-bit value [r] is the number [x] rounded to an integer next to
    it: an integer of 0..255 less than 1 away.  A wrapped value is a
    multiple of 256 away. *)
Definition rounds (x : R) (r : Z) : Prop :=
  u8 r /\ (Rabs (IZR r - x) < 1)%R.

(** A number cut to the range of 8 bits. *)
Definition saturated (x : R) : R := Rmax 0 (Rmin 255 x).

(** The 8-bit value [r] is the blend [v1 + alpha * (v2 - v1)] saturated to
    0..255 and cut to an integer: the float is cut towards zero, so [r] is
    less than 2 away from the exact saturated number. *)
Definition blends (alpha : Q) (v1 v2 r : Z) : Prop :=
  u8 r /\
  (Rabs (IZR r - saturated (IZR v1 + Q2R alpha * (IZR v2 - IZR v1))) < 2)%R.






(** The exposure curve as the specification words it,
    [log(1 + gain * in) / log(1 + gain)], to set against [adjust_log_val],
    the curve of the code. *)
Definition spec_exposure_curve (gain x : R) : R :=
  (ln (1 + gain * x) / ln (1 + gain))%R.

(** Does the character occur in the string? *)
Fixpoint has_char (c : ascii) (s : string) : bool :=
  match s with
  | EmptyString => false
  | String d s' => Ascii.eqb d c || has_char c s'
  end.

(** A computation that puts no line back on the input. *)
Definition consumes {A : Type} (m : M A) : Prop :=
  forall s r s', m s = (r, s') -> (length (stdin s') <= length (stdin s))%nat.

(** ** What a run may do to the state

    The vocabulary of the session invariants: the heap only gets new
    objects, the input only loses lines from the front, the console only
    gets events of a permitted kind. *)

Definition grows (ok : event -> Prop) (s s' : Sys) : Prop :=
  mem s `prefix_of` mem s' /\
  stdin s' `suffix_of` stdin s /\
  exists evs, out s' = out s ++ evs /\ Forall ok evs.

(** The reference holds an RGB image of the given width and height. *)
Definition valid (w h : nat) (l : loc) (s : Sys) : Prop :=
  exists px, mem s !! l = Some (PILImage w h px).

(** From a state where [P] holds the computation makes the state grow, and
    [Q] holds of what it returns. *)
Definition hoare {A : Type} (ok : event -> Prop) (P : Sys -> Prop) (m : M A)
    (Q : A -> Sys -> Prop) : Prop :=
  forall s r s', P s -> m s = (r, s') ->
    grows ok s s' /\ forall a, r = inr a -> Q a s'.

(** An image shown or saved has this size. *)
Definition event_size (w h : nat) (e : event) : Prop :=
  match e with
  | Show w' h' _ | Save _ _ w' h' _ => w' = w /\ h' = h
  | _ => True
  end.

Definition is_save (e : event) : Prop :=
  match e with
  | Save _ _ _ _ _ => True
  | _ => False
  end.

(** What the console may receive in a pass: anything but a save, unless the
    given condition holds. *)
Definition save_only_if (cond : Prop) (e : event) : Prop := is_save e -> cond.

(** What [Image.show] and [Image.save] of an image of this size may emit. *)
Definition permits (ok : event -> Prop) (w h : nat) (saving : Prop) : Prop :=
  (forall msg, ok (Print msg)) /\
  (forall p, ok (Prompt p)) /\
  (forall px, ok (Show w h px)) /\
  (saving -> forall path opts px, ok (Save path opts w h px)).

(** The prompt of each choice that asks for a number. *)
Definition parameter_prompt (choice : string) : option string :=
  if String.eqb choice "1" then Some "Gamma [1]: "
  else if String.eqb choice "3" then Some "Brightness [1]: "
  else if String.eqb choice "4" then Some "Contrast [1]: "
  else if String.eqb choice "5" then Some "Sharpness [1]: "
  else if String.eqb choice "6" then Some "Saturation [1]: "
  else if String.eqb choice "7" then Some "Exposure [1]: "
  else None.

(** ** An instance to run the model on

    One choice of the kernels, after the formulas the libraries document,
    and a small world around the program.  The theorems below hold for
    every instance; this one shows that the interfaces are inhabited and
    gives concrete runs. *)

Definition clip8 (z : Z) : Z := Z.max 0 (Z.min 255 z).

Definition sample_RGB2YCrCb (p : pixel) : pixel :=
  let '(r, g, b) := p in
  let y := clip8 ((299 * r + 587 * g + 114 * b + 500) / 1000) in
  (y, clip8 (((r - y) * 713 + 500) / 1000 + 128),
      clip8 (((b - y) * 564 + 500) / 1000 + 128)).

Definition sample_YCrCb2RGB (p : pixel) : pixel :=
  let '(y, cr, cb) := p in
  (clip8 (y + (1403 * (cr - 128) + 500) / 1000),
   clip8 (y - (714 * (cr - 128) + 344 * (cb - 128) + 500) / 1000),
   clip8 (y + (1773 * (cb - 128) + 500) / 1000)).

(** Cumulative histogram, scaled to 0..255. *)
Definition sample_equalize_lut (vs : list Z) (v : Z) : Z :=
  let below := Z.of_nat (length (filter (fun u => u <= v) vs)) in
  clip8 (255 * below / Z.of_nat (length vs)).

Definition sample_convert_L (p : pixel) : Z :=
  let '(r, g, b) := p in clip8 ((299 * r + 587 * g + 114 * b) / 1000).

Definition Zsum (vs : list Z) : Z := fold_right Z.add 0 vs.

Definition sample_stat_mean (vs : list Z) : Z :=
  let n := Z.of_nat (length vs) in
  clip8 ((2 * Zsum vs + n) / (2 * n)).

(** The 3x3 kernel (1 1 1 / 1 5 1 / 1 1 1) / 13; the border is copied. *)
Definition sample_smooth_at (w h : nat) (px : list pixel) (i : nat) : pixel :=
  let at_ (j : nat) : pixel := nth j px (0, 0, 0) in
  let x := (i mod w)%nat in
  let y := (i / w)%nat in
  if (x =? 0)%nat || (y =? 0)%nat || (S x =? w)%nat || (S y =? h)%nat
  then pmap clip8 (at_ i)
  else
    let around :=
      [at_ (i - w - 1)%nat; at_ (i - w)%nat; at_ (i - w + 1)%nat;
       at_ (i - 1)%nat; at_ (i + 1)%nat;
       at_ (i + w - 1)%nat; at_ (i + w)%nat; at_ (i + w + 1)%nat] in
    let chan (f : pixel -> Z) : Z :=
      clip8 ((Zsum (map f around) + 5 * f (at_ i) + 6) / 13) in
    (chan (fun p => p.1.1), chan (fun p => p.1.2), chan (fun p => p.2)).

Definition sample_SMOOTH (w h : nat) (px : list pixel) : list pixel :=
  map (sample_smooth_at w h px) (seq 0 (length px)).

#[refine] Instance sample_lib : ImagingLib := {|
  cvt_RGB2YCrCb := sample_RGB2YCrCb;
  cvt_YCrCb2RGB := sample_YCrCb2RGB;
  equalize_lut := sample_equalize_lut;
  convert_L := sample_convert_L;
  stat_mean := sample_stat_mean;
  filter_SMOOTH := sample_SMOOTH
|}.
Proof.
  all: assert (Hclip : forall z, u8 (clip8 z)) by (intros z; unfold u8, clip8; lia).
  - intros [[y cr] cb]. simpl. auto.
  - intros [[r g] b]. simpl. auto.
  - intros vs. unfold sample_stat_mean. auto.
  - intros w h px. unfold sample_SMOOTH. apply Forall_forall.
    intros p Hp. apply list_elem_of_In, in_map_iff in Hp.
    destruct Hp as (i & <- & _). unfold sample_smooth_at.
    destruct (_ || _).
    + destruct (nth i px (0, 0, 0)) as [[a b] c]. simpl. auto.
    + simpl. auto.
Defined.

(** Decimal numbers: an optional sign, digits, an optional point. *)
Definition digit_of (c : ascii) : option Z :=
  let n := nat_of_ascii c in
  if (48 <=? n)%nat && (n <=? 57)%nat then Some (Z.of_nat (n - 48)) else None.

Fixpoint read_decimal (s : string) (num : Z) (den : positive)
    (after_point seen_digit : bool) : option Q :=
  match s with
  | EmptyString => if seen_digit then Some (Qmake num den) else None
  | String c s' =>
      if Ascii.eqb c "." then
        if after_point then None else read_decimal s' num den true seen_digit
      else
        match digit_of c with
        | Some d =>
            read_decimal s' (10 * num + d)
                         (if after_point then 10 * den else den)%positive
                         after_point true
        | None => None
        end
  end.

Definition sample_float (s : string) : exn + Q :=
  let r :=
    match s with
    | String "-" s' => (fun q => Qopp q) <$> read_decimal s' 0 1 false false
    | _ => read_decimal s 0 1 false false
    end in
  match r with
  | Some q => inr q
  | None => inl (ValueError ("could not convert string to float: " +:+ s))
  end.

(** One file exists: [in.png], two pixels wide and one high. *)
Definition sample_open (path : string) : exn + (nat * nat * list pixel) :=
  if String.eqb path "in.png"
  then inr (2%nat, 1%nat, [(10, 20, 30); (200, 100, 50)])
  else inl (OtherError ("No such file or directory: " +:+ path)).

Instance sample_rt : Runtime := {|
  float_of_string := sample_float;
  open_rgb := sample_open;
  save_error := fun _ _ => None
|}.

(** A run from an empty heap on the given input lines. *)
Definition run {A : Type} (m : M A) (lines : list string) : (exn + A) * Sys :=
  m (mkSys [] lines []).

(** A world like [sample_rt] where nothing can be written. *)
Definition readonly_rt : Runtime := {|
  float_of_string := sample_float;
  open_rgb := sample_open;
  save_error := fun path _ => Some (OtherError ("Permission denied: " +:+ path))
|}.

(** * Properties *)

(** ** Arithmetic of the kernels *)

Lemma np_clip_val_unit x : (0 <= np_clip_val 0 1 x <= 1)%R.
Proof.
  unfold np_clip_val, Rmin, Rmax.
  destruct (Rle_dec x 0); destruct (Rle_dec _ 1); lra.
Qed.

Lemma np_clip_val_id x : (0 <= x <= 1)%R -> np_clip_val 0 1 x = x.
Proof.
  intros H. unfold np_clip_val, Rmin, Rmax.
  destruct (Rle_dec x 0); destruct (Rle_dec _ 1); lra.
Qed.

Lemma np_clip_val_mono x y : (x <= y)%R -> (np_clip_val 0 1 x <= np_clip_val 0 1 y)%R.
Proof.
  intros H. unfold np_clip_val.
  apply Rle_min_compat_r. apply Rle_max_compat_r. exact H.
Qed.

Lemma rint_range x : (0 <= x <= 255)%R -> 0 <= rint x <= 255.
Proof.
  intros [Hlo Hhi].
  pose proof (Zfloor_bound x) as [Hf1 Hf2].
  assert (H0 : 0 <= Zfloor x) by (apply Zfloor_lub; exact Hlo).
  assert (H255 : Zfloor x <= 255).
  { apply le_IZR. lra. }
  unfold rint.
  destruct (Rlt_dec _ _) as [|Hd1]; [lia|].
  assert (Hne : Zfloor x <> 255).
  { intros E. rewrite E in Hd1. lra. }
  destruct (Rlt_dec _ _); [lia|].
  destruct (Z.even _); lia.
Qed.

Lemma rint_IZR z : rint (IZR z) = z.
Proof.
  assert (E : Zfloor (IZR z) = z) by (apply Zfloor_eq; lra).
  unfold rint. rewrite E.
  destruct (Rlt_dec _ _) as [|Hd]; [reflexivity | lra].
Qed.

Lemma astype_uint8_u8 z : u8 z -> astype_uint8 z = z.
Proof. unfold u8, astype_uint8. intros H. apply Z.mod_small. lia. Qed.

(** On a value of [0, 1] the conversion to 8 bits is a plain rounding: the
    clip inside it does nothing and the cast does not wrap. *)
Lemma img_as_ubyte_val_unit c :
  (0 <= c <= 1)%R ->
  img_as_ubyte_val c = rint (c * 255) /\ u8 (img_as_ubyte_val c).
Proof.
  intros Hc.
  assert (Hr : 0 <= rint (c * 255) <= 255) by (apply rint_range; lra).
  unfold img_as_ubyte_val.
  replace (Z.max 0 (Z.min 255 (rint (c * 255)))) with (rint (c * 255)) by lia.
  rewrite astype_uint8_u8 by exact Hr. split; [reflexivity | exact Hr].
Qed.

Lemma in_signed_unit_unit c : (0 <= c <= 1)%R -> in_signed_unit c = true.
Proof.
  intros Hc. unfold in_signed_unit.
  destruct (Rle_dec (-1) c); [|lra]. destruct (Rle_dec c 1); [reflexivity | lra].
Qed.

Lemma clipped_unit (px : list fpixel) :
  Forall unit_fpixel (map (pmap (np_clip_val 0 1)) px).
Proof.
  apply Forall_forall. intros p Hp.
  apply list_elem_of_In, in_map_iff in Hp. destruct Hp as ([[a b] c] & <- & _).
  simpl. auto using np_clip_val_unit.
Qed.

Lemma unit_fpixels_ok (px : list fpixel) :
  Forall unit_fpixel px -> forallb fpixel_ok px = true.
Proof.
  induction 1 as [|[[a b] c] px (Ha & Hb & Hc) _ IH]; [reflexivity|].
  simpl. rewrite !in_signed_unit_unit by assumption. exact IH.
Qed.


Lemma c_trunc_range q : (0 <= q)%Q -> (q <= 255)%Q -> 0 <= c_trunc q <= 255.
Proof.
  intros H0 H255. unfold c_trunc.
  apply Qle_bool_iff in H0 as Hb. rewrite Hb.
  split.
  - change 0 with (Qfloor 0). apply Qfloor_resp_le. exact H0.
  - change 255 with (Qfloor 255). apply Qfloor_resp_le. exact H255.
Qed.

Lemma blend_exact_between alpha v1 v2 :
  (0 <= alpha)%Q -> (alpha <= 1)%Q -> u8 v1 -> u8 v2 ->
  (0 <= blend_exact alpha v1 v2)%Q /\ (blend_exact alpha v1 v2 <= 255)%Q.
Proof.
  intros Ha0 Ha1 [H1 H1'] [H2 H2']. unfold blend_exact.
  assert (E : (inject_Z v1 + alpha * (inject_Z v2 - inject_Z v1)
               == (1 - alpha) * inject_Z v1 + alpha * inject_Z v2)%Q) by ring.
  rewrite E.
  assert (Q1 : (0 <= inject_Z v1)%Q) by (unfold Qle; simpl; lia).
  assert (Q1' : (inject_Z v1 <= 255)%Q) by (unfold Qle; simpl; lia).
  assert (Q2 : (0 <= inject_Z v2)%Q) by (unfold Qle; simpl; lia).
  assert (Q2' : (inject_Z v2 <= 255)%Q) by (unfold Qle; simpl; lia).
  assert (Hb : (0 <= 1 - alpha)%Q) by Lqa.lra.
  split; Lqa.nra.
Qed.

(** An 8-bit result that is the saturation of the exact value: never a
    wrapped one. *)
Lemma blend_val_saturates alpha v1 v2 :
  u8 v1 -> u8 v2 ->
  blend_val alpha v1 v2 = Z.max 0 (Z.min 255 (c_trunc (blend_exact alpha v1 v2)))
  /\ u8 (blend_val alpha v1 v2).
Proof.
  intros H1 H2. unfold blend_val. fold (blend_exact alpha v1 v2).
  set (t := blend_exact alpha v1 v2).
  destruct (Qle_bool 0 alpha && Qle_bool alpha 1) eqn:Hint.
  - apply andb_true_iff in Hint as [Ha0 Ha1].
    apply Qle_bool_iff in Ha0, Ha1.
    destruct (blend_exact_between alpha v1 v2 Ha0 Ha1 H1 H2) as [Ht0 Ht1].
    pose proof (c_trunc_range t Ht0 Ht1) as Hr.
    rewrite astype_uint8_u8 by exact Hr. unfold u8. lia.
  - destruct (Qle_bool t 0) eqn:Hle0.
    + apply Qle_bool_iff in Hle0.
      assert (c_trunc t <= 0).
      { unfold c_trunc. destruct (Qle_bool 0 t) eqn:Hge0.
        - change 0 with (Qfloor 0). apply Qfloor_resp_le. exact Hle0.
        - change 0 with (Qceiling 0). apply Qceiling_resp_le. exact Hle0. }
      unfold u8. lia.
    + assert (Hpos : (0 < t)%Q).
      { apply Qnot_le_lt. intros Hc. apply Qle_bool_iff in Hc. congruence. }
      destruct (Qle_bool 255 t) eqn:Hge.
      * apply Qle_bool_iff in Hge.
        assert (255 <= c_trunc t).
        { unfold c_trunc.
          assert (Hb : Qle_bool 0 t = true) by (apply Qle_bool_iff; Lqa.lra).
          rewrite Hb. change 255 with (Qfloor 255). apply Qfloor_resp_le. exact Hge. }
        unfold u8. lia.
      * assert (Hlt : (t < 255)%Q).
        { apply Qnot_le_lt. intros Hc. apply Qle_bool_iff in Hc. congruence. }
        assert (Hr : 0 <= c_trunc t <= 255) by (apply c_trunc_range; Lqa.lra).
        rewrite astype_uint8_u8 by exact Hr. unfold u8. lia.
Qed.

Lemma blend_pixels_one alpha px1 px2 : (alpha == 1)%Q -> blend_pixels alpha px1 px2 = px2.
Proof.
  intros H. unfold blend_pixels.
  assert (H0 : Qeq_bool alpha 0 = false).
  { apply not_true_is_false. intros Hc. apply Qeq_bool_iff in Hc.
    rewrite H in Hc. discriminate. }
  rewrite H0. apply Qeq_bool_iff in H. rewrite H. reflexivity.
Qed.


(** ** Stored values up to the last rounding *)

Lemma rint_near x : (Rabs (IZR (rint x) - x) <= 1 / 2)%R.
Proof.
  pose proof (Zfloor_bound x) as [Hf1 Hf2].
  unfold rint.
  destruct (Rlt_dec _ _) as [Hd1|Hd1].
  - apply Rabs_le. lra.
  - destruct (Rlt_dec _ _) as [Hd2|Hd2].
    + rewrite plus_IZR. apply Rabs_le. lra.
    + destruct (Z.even _); [|rewrite plus_IZR]; apply Rabs_le; lra.
Qed.

Lemma img_as_ubyte_val_rounds c :
  (0 <= c <= 1)%R -> rounds (c * 255) (img_as_ubyte_val c).
Proof.
  intros Hc. destruct (img_as_ubyte_val_unit c Hc) as [E Hu].
  split; [exact Hu|]. rewrite E.
  pose proof (rint_near (c * 255)). lra.
Qed.




Lemma Q2R_inject_Z z : Q2R (inject_Z z) = IZR z.
Proof. unfold Q2R. simpl. lra. Qed.






(** A wrapped value is no saturated blend: black and 200 at factor 3/2
    make 300, which saturates to 255 and would wrap to 44. *)
Lemma wrapped_is_not_blended : ~ blends (Qmake 3 2) 0 200 44.
Proof.
  intros [_ H]. revert H.
  replace (IZR 0 + Q2R (Qmake 3 2) * (IZR 200 - IZR 0))%R with 300%R
    by (unfold Q2R; simpl; lra).
  unfold saturated, Rmax, Rmin.
  destruct (Rle_dec 255 300) as [_|Hn]; [|lra].
  destruct (Rle_dec 0 255) as [_|Hn]; [|lra].
  unfold Rabs. destruct (Rcase_abs _); lra.
Qed.





(** ** Running the monad *)

Lemma bind_run {A B : Type} (m : M A) (f : A -> M B) s a s' :
  m s = (inr a, s') -> (m ≫= f) s = f a s'.
Proof. intros H. unfold mbind, M_bind. rewrite H. reflexivity. Qed.

Lemma bind_raise {A B : Type} (m : M A) (f : A -> M B) s e s' :
  m s = (inl e, s') -> (m ≫= f) s = (inl e, s').
Proof. intros H. unfold mbind, M_bind. rewrite H. reflexivity. Qed.

Lemma deref_run s l o : mem s !! l = Some o -> deref l s = (inr o, s).
Proof. intros H. unfold deref. rewrite H. reflexivity. Qed.

Lemma lookup_push_new s o : mem (push s o) !! length (mem s) = Some o.
Proof. simpl. apply list_lookup_middle. reflexivity. Qed.

Lemma lookup_push_old s o l x : mem s !! l = Some x -> mem (push s o) !! l = Some x.
Proof. intros H. simpl. apply lookup_app_l_Some. exact H. Qed.

Lemma length_push s o : length (mem (push s o)) = S (length (mem s)).
Proof. simpl. rewrite length_app. simpl. lia. Qed.

Create HintDb heap.
#[local] Hint Resolve lookup_push_new lookup_push_old : heap.

Section LibraryRuns.
Context {lib : ImagingLib}.

Lemma np_array_run s image w h px :
  mem s !! image = Some (PILImage w h px) ->
  np_array image s = (inr (length (mem s)), push s (U8Array w h px)).
Proof. intros H. unfold np_array. rewrite (bind_run _ _ _ _ _ (deref_run _ _ _ H)). reflexivity. Qed.

Lemma img_as_float_run s arr w h px :
  mem s !! arr = Some (U8Array w h px) ->
  img_as_float arr s
  = (inr (length (mem s)), push s (F64Array w h (map (pmap img_as_float_val) px))).
Proof. intros H. unfold img_as_float. rewrite (bind_run _ _ _ _ _ (deref_run _ _ _ H)). reflexivity. Qed.

Lemma exposure_adjust_gamma_run s arr gamma w h px :
  (0 <= gamma)%Q ->
  mem s !! arr = Some (F64Array w h px) ->
  exposure_adjust_gamma arr gamma s
  = (inr (length (mem s)),
     push s (F64Array w h (map (pmap (adjust_gamma_val (Q2R gamma))) px))).
Proof.
  intros Hg H. unfold exposure_adjust_gamma.
  destruct (Qlt_le_dec gamma 0) as [Hneg|_]; [Lqa.lra|].
  rewrite (bind_run _ _ _ _ _ (deref_run _ _ _ H)). reflexivity.
Qed.

Lemma exposure_adjust_gamma_negative s arr gamma :
  (gamma < 0)%Q ->
  exposure_adjust_gamma arr gamma s
  = (inl (ValueError "Gamma should be a non-negative real number."), s).
Proof.
  intros Hg. unfold exposure_adjust_gamma.
  destruct (Qlt_le_dec gamma 0) as [_|Hpos]; [reflexivity | Lqa.lra].
Qed.

Lemma exposure_adjust_log_run s arr gain w h px :
  mem s !! arr = Some (F64Array w h px) ->
  exposure_adjust_log arr gain s
  = (inr (length (mem s)),
     push s (F64Array w h (map (pmap (adjust_log_val (Q2R gain))) px))).
Proof. intros H. unfold exposure_adjust_log. rewrite (bind_run _ _ _ _ _ (deref_run _ _ _ H)). reflexivity. Qed.

Lemma np_clip_run s arr lo hi w h px :
  mem s !! arr = Some (F64Array w h px) ->
  np_clip arr lo hi s
  = (inr (length (mem s)), push s (F64Array w h (map (pmap (np_clip_val lo hi)) px))).
Proof. intros H. unfold np_clip. rewrite (bind_run _ _ _ _ _ (deref_run _ _ _ H)). reflexivity. Qed.

Lemma img_as_ubyte_run s arr w h px :
  Forall unit_fpixel px ->
  mem s !! arr = Some (F64Array w h px) ->
  img_as_ubyte arr s
  = (inr (length (mem s)), push s (U8Array w h (map (pmap img_as_ubyte_val) px))).
Proof.
  intros Hu H. unfold img_as_ubyte.
  rewrite (bind_run _ _ _ _ _ (deref_run _ _ _ H)).
  rewrite (unit_fpixels_ok _ Hu). reflexivity.
Qed.

Lemma Image_fromarray_run s arr w h px :
  mem s !! arr = Some (U8Array w h px) ->
  Image_fromarray arr s = (inr (length (mem s)), push s (PILImage w h px)).
Proof. intros H. unfold Image_fromarray. rewrite (bind_run _ _ _ _ _ (deref_run _ _ _ H)). reflexivity. Qed.

Lemma cv2_cvtColor_run s arr code w h px :
  mem s !! arr = Some (U8Array w h px) ->
  cv2_cvtColor arr code s
  = (inr (length (mem s)), push s (U8Array w h (map (cvt code) px))).
Proof. intros H. unfold cv2_cvtColor. rewrite (bind_run _ _ _ _ _ (deref_run _ _ _ H)). reflexivity. Qed.

Lemma cv2_equalizeHist_channel0_run s arr w h px :
  mem s !! arr = Some (U8Array w h px) ->
  cv2_equalizeHist_channel0 arr s
  = (inr (length (mem s)),
     push s (U8Plane w h (map (equalize_lut (map channel0 px)) (map channel0 px)))).
Proof.
  intros H. unfold cv2_equalizeHist_channel0.
  rewrite (bind_run _ _ _ _ _ (deref_run _ _ _ H)). reflexivity.
Qed.

Lemma set_channel0_run s arr plane w h px vs :
  mem s !! arr = Some (U8Array w h px) ->
  mem s !! plane = Some (U8Plane w h vs) ->
  set_channel0 arr plane s
  = (inr tt, mkSys (<[arr := U8Array w h (zip_with with_channel0 vs px)]> (mem s))
                   (stdin s) (out s)).
Proof.
  intros Ha Hp. unfold set_channel0.
  rewrite (bind_run _ _ _ _ _ (deref_run _ _ _ Ha)).
  rewrite (bind_run _ _ _ _ _ (deref_run _ _ _ Hp)).
  rewrite decide_True by done. reflexivity.
Qed.

Lemma Image_blend_run s im1 im2 alpha w h px1 px2 :
  mem s !! im1 = Some (PILImage w h px1) ->
  mem s !! im2 = Some (PILImage w h px2) ->
  Image_blend im1 im2 alpha s
  = (inr (length (mem s)), push s (PILImage w h (blend_pixels alpha px1 px2))).
Proof.
  intros H1 H2. unfold Image_blend.
  rewrite (bind_run _ _ _ _ _ (deref_run _ _ _ H1)).
  rewrite (bind_run _ _ _ _ _ (deref_run _ _ _ H2)).
  rewrite decide_True by done. reflexivity.
Qed.

Lemma ImageEnhance_Brightness_run s image w h px :
  mem s !! image = Some (PILImage w h px) ->
  ImageEnhance_Brightness image s
  = (inr (mkEnhancer image (length (mem s))),
     push s (PILImage w h (degenerate_Brightness w h px))).
Proof. intros H. unfold ImageEnhance_Brightness. rewrite (bind_run _ _ _ _ _ (deref_run _ _ _ H)). reflexivity. Qed.

Lemma ImageEnhance_Contrast_run s image w h px :
  mem s !! image = Some (PILImage w h px) ->
  ImageEnhance_Contrast image s
  = (inr (mkEnhancer image (length (mem s))),
     push s (PILImage w h (degenerate_Contrast w h px))).
Proof. intros H. unfold ImageEnhance_Contrast. rewrite (bind_run _ _ _ _ _ (deref_run _ _ _ H)). reflexivity. Qed.

Lemma ImageEnhance_Sharpness_run s image w h px :
  mem s !! image = Some (PILImage w h px) ->
  ImageEnhance_Sharpness image s
  = (inr (mkEnhancer image (length (mem s))),
     push s (PILImage w h (degenerate_Sharpness w h px))).
Proof. intros H. unfold ImageEnhance_Sharpness. rewrite (bind_run _ _ _ _ _ (deref_run _ _ _ H)). reflexivity. Qed.

Lemma ImageEnhance_Color_run s image w h px :
  mem s !! image = Some (PILImage w h px) ->
  ImageEnhance_Color image s
  = (inr (mkEnhancer image (length (mem s))),
     push s (PILImage w h (degenerate_Color w h px))).
Proof. intros H. unfold ImageEnhance_Color. rewrite (bind_run _ _ _ _ _ (deref_run _ _ _ H)). reflexivity. Qed.

End LibraryRuns.

(** ** What each adjustment leaves in the heap *)

Lemma pushes_pushes s os os' : pushes (pushes s os) os' = pushes s (os ++ os').
Proof. unfold pushes. simpl. rewrite <- app_assoc. reflexivity. Qed.

Lemma push_as_pushes s o : push s o = pushes s [o].
Proof. reflexivity. Qed.

Ltac flatten_pushes :=
  rewrite ?length_push; rewrite !push_as_pushes; rewrite ?pushes_pushes; simpl app.

Ltac run_with lem :=
  erewrite bind_run by (apply lem; eauto with heap).

Section ProgramRuns.
Context {lib : ImagingLib} {rt : Runtime}.

Lemma apply_gamma_run s image gamma w h px :
  mem s !! image = Some (PILImage w h px) ->
  (0 <= gamma)%Q ->
  apply_gamma image gamma s
  = (inr (5 + length (mem s))%nat,
     pushes s [U8Array w h px;
               F64Array w h (normalized px);
               F64Array w h (gamma_floats gamma px);
               F64Array w h (clipped (gamma_floats gamma px));
               U8Array w h (to_ubyte (clipped (gamma_floats gamma px)));
               PILImage w h (to_ubyte (clipped (gamma_floats gamma px)))]).
Proof.
  intros Himg Hg. unfold apply_gamma.
  run_with np_array_run.
  run_with img_as_float_run.
  run_with exposure_adjust_gamma_run.
  run_with np_clip_run.
  erewrite bind_run
    by (apply img_as_ubyte_run; [apply clipped_unit | eauto with heap]).
  erewrite Image_fromarray_run by eauto with heap.
  flatten_pushes. reflexivity.
Qed.

Lemma apply_gamma_negative s image gamma w h px :
  mem s !! image = Some (PILImage w h px) ->
  (gamma < 0)%Q ->
  apply_gamma image gamma s
  = (inl (ValueError "Gamma should be a non-negative real number."),
     pushes s [U8Array w h px; F64Array w h (normalized px)]).
Proof.
  intros Himg Hg. unfold apply_gamma.
  run_with np_array_run.
  run_with img_as_float_run.
  erewrite bind_raise by (apply exposure_adjust_gamma_negative; exact Hg).
  flatten_pushes. reflexivity.
Qed.

Lemma adjust_exposure_run s image gain w h px :
  mem s !! image = Some (PILImage w h px) ->
  adjust_exposure image gain s
  = (inr (5 + length (mem s))%nat,
     pushes s [U8Array w h px;
               F64Array w h (normalized px);
               F64Array w h (log_floats gain px);
               F64Array w h (clipped (log_floats gain px));
               U8Array w h (to_ubyte (clipped (log_floats gain px)));
               PILImage w h (to_ubyte (clipped (log_floats gain px)))]).
Proof.
  intros Himg. unfold adjust_exposure.
  run_with np_array_run.
  run_with img_as_float_run.
  run_with exposure_adjust_log_run.
  run_with np_clip_run.
  erewrite bind_run
    by (apply img_as_ubyte_run; [apply clipped_unit | eauto with heap]).
  erewrite Image_fromarray_run by eauto with heap.
  flatten_pushes. reflexivity.
Qed.

Lemma assign_pushed s a b c x :
  <[length (mem (push s a)) := x]> (mem (push (push (push s a) b) c))
  = mem (pushes s [a; x; c]).
Proof.
  destruct s as [m i o]. unfold pushes, push. cbn [mem stdin out].
  rewrite <- !app_assoc. cbn [app]. rewrite length_app. cbn [length].
  rewrite insert_app_r_alt by lia.
  replace (length m + 1 - length m)%nat with 1%nat by lia. reflexivity.
Qed.

Lemma apply_hist_eq_run s image w h px :
  mem s !! image = Some (PILImage w h px) ->
  apply_hist_eq image s
  = (inr (4 + length (mem s))%nat,
     pushes s [U8Array w h px;
               U8Array w h (equalized_ycrcb px);
               U8Plane w h (equalized_plane (ycrcb_of px));
               U8Array w h (hist_eq_pixels px);
               PILImage w h (hist_eq_pixels px)]).
Proof.
  intros Himg. unfold apply_hist_eq.
  run_with np_array_run.
  run_with cv2_cvtColor_run.
  run_with cv2_equalizeHist_channel0_run.
  erewrite bind_run by (apply set_channel0_run; eauto with heap).
  rewrite assign_pushed.
  change (mkSys (mem (pushes s ?os)) _ _) with (pushes s os).
  rewrite !length_push.
  set (s1 := pushes s _).
  assert (H1 : mem s1 !! S (length (mem s)) = Some (U8Array w h (equalized_ycrcb px))).
  { subst s1. unfold pushes. cbn [mem].
    rewrite lookup_app_r by lia.
    replace (S (length (mem s)) - length (mem s))%nat with 1%nat by lia.
    reflexivity. }
  erewrite bind_run by (apply cv2_cvtColor_run; exact H1).
  erewrite Image_fromarray_run by eauto with heap.
  subst s1. flatten_pushes. unfold pushes. cbn [mem]. rewrite !length_app. simpl.
  do 3 f_equal. lia.
Qed.

Lemma enhance_run s e factor w h dpx px :
  mem s !! enh_degenerate e = Some (PILImage w h dpx) ->
  mem s !! enh_image e = Some (PILImage w h px) ->
  enhance e factor s
  = (inr (length (mem s)), push s (PILImage w h (blend_pixels factor dpx px))).
Proof. intros Hd Hi. unfold enhance. apply Image_blend_run; assumption. Qed.

Lemma adjust_brightness_run s image factor w h px :
  mem s !! image = Some (PILImage w h px) ->
  adjust_brightness image factor s
  = (inr (1 + length (mem s))%nat,
     pushes s [PILImage w h (degenerate_Brightness w h px);
               PILImage w h (blend_pixels factor (degenerate_Brightness w h px) px)]).
Proof.
  intros Himg. unfold adjust_brightness.
  run_with ImageEnhance_Brightness_run.
  erewrite enhance_run by (cbn [enh_degenerate enh_image]; eauto with heap).
  flatten_pushes. reflexivity.
Qed.

Lemma adjust_contrast_run s image factor w h px :
  mem s !! image = Some (PILImage w h px) ->
  adjust_contrast image factor s
  = (inr (1 + length (mem s))%nat,
     pushes s [PILImage w h (degenerate_Contrast w h px);
               PILImage w h (blend_pixels factor (degenerate_Contrast w h px) px)]).
Proof.
  intros Himg. unfold adjust_contrast.
  run_with ImageEnhance_Contrast_run.
  erewrite enhance_run by (cbn [enh_degenerate enh_image]; eauto with heap).
  flatten_pushes. reflexivity.
Qed.

Lemma adjust_sharpness_run s image factor w h px :
  mem s !! image = Some (PILImage w h px) ->
  adjust_sharpness image factor s
  = (inr (1 + length (mem s))%nat,
     pushes s [PILImage w h (degenerate_Sharpness w h px);
               PILImage w h (blend_pixels factor (degenerate_Sharpness w h px) px)]).
Proof.
  intros Himg. unfold adjust_sharpness.
  run_with ImageEnhance_Sharpness_run.
  erewrite enhance_run by (cbn [enh_degenerate enh_image]; eauto with heap).
  flatten_pushes. reflexivity.
Qed.

Lemma adjust_saturation_run s image factor w h px :
  mem s !! image = Some (PILImage w h px) ->
  adjust_saturation image factor s
  = (inr (1 + length (mem s))%nat,
     pushes s [PILImage w h (degenerate_Color w h px);
               PILImage w h (blend_pixels factor (degenerate_Color w h px) px)]).
Proof.
  intros Himg. unfold adjust_saturation.
  run_with ImageEnhance_Color_run.
  erewrite enhance_run by (cbn [enh_degenerate enh_image]; eauto with heap).
  flatten_pushes. reflexivity.
Qed.

End ProgramRuns.

(** ** The adjustments as functions on pixels *)

Section Adjustments.
Context {lib : ImagingLib} {rt : Runtime}.

Lemma adjust_run a s image w h px :
  mem s !! image = Some (PILImage w h px) ->
  accepted a ->
  adjust a image s
  = (inr (length (mem s) + length (adjust_allocs a w h px))%nat,
     pushes s (adjust_allocs a w h px ++ [PILImage w h (adjusted_pixels a w h px)])).
Proof.
  intros Himg Hacc.
  destruct a; simpl adjust; simpl adjust_allocs; simpl adjusted_pixels;
    [ rewrite (apply_gamma_run _ _ _ _ _ _ Himg Hacc)
    | rewrite (apply_hist_eq_run _ _ _ _ _ Himg)
    | rewrite (adjust_brightness_run _ _ _ _ _ _ Himg)
    | rewrite (adjust_contrast_run _ _ _ _ _ _ Himg)
    | rewrite (adjust_sharpness_run _ _ _ _ _ _ Himg)
    | rewrite (adjust_saturation_run _ _ _ _ _ _ Himg)
    | rewrite (adjust_exposure_run _ _ _ _ _ _ Himg) ];
    simpl; do 2 f_equal; lia.
Qed.

(** A refused gamma: the exception leaves two temporaries behind. *)
Lemma adjust_refused s image gamma w h px :
  mem s !! image = Some (PILImage w h px) ->
  (gamma < 0)%Q ->
  adjust (Gamma gamma) image s
  = (inl (ValueError "Gamma should be a non-negative real number."),
     pushes s [U8Array w h px; F64Array w h (normalized px)]).
Proof. intros Himg Hg. simpl. apply apply_gamma_negative; assumption. Qed.

Lemma lookup_pushes_old s os l x :
  mem s !! l = Some x -> mem (pushes s os) !! l = Some x.
Proof. intros H. simpl. apply lookup_app_l_Some. exact H. Qed.

Lemma lookup_pushes_new s os k :
  mem (pushes s os) !! (k + length (mem s))%nat = os !! k.
Proof.
  simpl. rewrite lookup_app_r by lia. f_equal. lia.
Qed.

Lemma lookup_pushes_last s os o :
  mem (pushes s (os ++ [o])) !! (length (mem s) + length os)%nat = Some o.
Proof.
  simpl. rewrite lookup_app_r by lia.
  replace (length (mem s) + length os - length (mem s))%nat with (length os) by lia.
  apply list_lookup_middle. reflexivity.
Qed.

Lemma zip_with_channel0 (f : Z -> Z) (ycc : list pixel) :
  zip_with with_channel0 (map f (map channel0 ycc)) ycc
  = map (fun p => with_channel0 (f (channel0 p)) p) ycc.
Proof. induction ycc as [|p ycc IH]; simpl; [reflexivity | rewrite IH; reflexivity]. Qed.

Lemma hist_eq_pixels_formula (px : list pixel) :
  hist_eq_pixels px
  = map (fun p =>
           let '(y, cr, cb) := cvt_RGB2YCrCb p in
           cvt_YCrCb2RGB
             (equalize_lut (map (fun q => channel0 (cvt_RGB2YCrCb q)) px) y, cr, cb))
        px.
Proof.
  unfold hist_eq_pixels, equalized_ycrcb, equalized_plane, ycrcb_of.
  rewrite zip_with_channel0. rewrite !map_map. simpl.
  apply map_ext. intros p. destruct (cvt_RGB2YCrCb p) as [[y cr] cb]. reflexivity.
Qed.

End Adjustments.

(** ** Claims about the adjustments *)

Section AdjustmentClaims.
Context {lib : ImagingLib} {rt : Runtime}.









(** C5.  Histogram equalisation converts every pixel to Y, Cr, Cb, sends
    the luma through the look-up table computed from the whole luma channel,
    keeps Cr and Cb as they are, converts back to RGB, and returns an image
    of the same width and height with as many three-channel pixels. *)
Theorem hist_eq_equalizes_luma_only s image w h px :
  mem s !! image = Some (PILImage w h px) ->
  exists l s' px',
    apply_hist_eq image s = (inr l, s') /\
    mem s' !! l = Some (PILImage w h px') /\
    length px' = length px /\
    px' = map (fun p =>
                 let '(y, cr, cb) := cvt_RGB2YCrCb p in
                 cvt_YCrCb2RGB
                   (equalize_lut (map (fun q => channel0 (cvt_RGB2YCrCb q)) px) y,
                    cr, cb))
              px.
Proof.
  intros Himg.
  exists (4 + length (mem s))%nat. eexists. exists (hist_eq_pixels px).
  split; [apply apply_hist_eq_run; exact Himg|].
  split.
  - replace (4 + length (mem s))%nat with (length (mem s) + 4)%nat by lia.
    apply (lookup_pushes_last s [_; _; _; _]).
  - split; [|apply hist_eq_pixels_formula].
    rewrite hist_eq_pixels_formula. apply length_map.
Qed.

(** C7.  Whatever the adjustment and its parameter, and whether it returns
    or raises, the run only adds objects to the heap: every object that was
    there, the input image among them, is as it was, and the console is not
    touched.  When the parameter is accepted the result is an image at a
    reference that did not exist before. *)
Theorem adjust_leaves_input (a : Adjustment) s image w h px r s' :
  mem s !! image = Some (PILImage w h px) ->
  adjust a image s = (r, s') ->
  (exists os, s' = pushes s os) /\
  mem s' !! image = Some (PILImage w h px) /\
  (accepted a ->
   exists l px', r = inr l /\ l <> image /\ mem s !! l = None /\
                 mem s' !! l = Some (PILImage w h px')).
Proof.
  intros Himg Hrun.
  assert (Hlt : (image < length (mem s))%nat) by (eapply lookup_lt_Some; exact Himg).
  assert (Hcase : accepted a \/ exists gamma, a = Gamma gamma /\ (gamma < 0)%Q).
  { destruct a; simpl; auto. destruct (Qlt_le_dec gamma 0); eauto. }
  destruct Hcase as [Hacc | (gamma & -> & Hneg)].
  - rewrite (adjust_run _ _ _ _ _ _ Himg Hacc) in Hrun.
    injection Hrun as <- <-.
    split; [eauto|]. split; [apply lookup_pushes_old; exact Himg|].
    intros _. eexists. eexists. split; [reflexivity|].
    split; [lia|]. split; [apply lookup_ge_None; lia | apply lookup_pushes_last].
  - rewrite (adjust_refused _ _ _ _ _ _ Himg Hneg) in Hrun.
    injection Hrun as <- <-.
    split; [eauto|]. split; [apply lookup_pushes_old; exact Himg|].
    intros Hacc. simpl in Hacc. Lqa.lra.
Qed.

(** C8.  Brightness, contrast, sharpness and saturation with factor 1 return
    an image whose size and pixels are those of the input. *)
Theorem enhance_one_is_identity (a : Adjustment) s image w h px factor :
  mem s !! image = Some (PILImage w h px) ->
  (factor == 1)%Q ->
  a = Brightness factor \/ a = Contrast factor \/
  a = Sharpness factor \/ a = Saturation factor ->
  exists l s', adjust a image s = (inr l, s') /\
               mem s' !! l = Some (PILImage w h px).
Proof.
  intros Himg Hone Ha.
  assert (Hacc : accepted a) by (destruct Ha as [-> | [-> | [-> | -> ] ] ]; exact I).
  assert (E : adjusted_pixels a w h px = px).
  { destruct Ha as [-> | [-> | [-> | -> ] ] ]; simpl; apply blend_pixels_one; exact Hone. }
  exists (length (mem s) + length (adjust_allocs a w h px))%nat,
    (pushes s (adjust_allocs a w h px ++ [PILImage w h (adjusted_pixels a w h px)])).
  split; [apply adjust_run; assumption|].
  pose proof (lookup_pushes_last s (adjust_allocs a w h px)
                (PILImage w h (adjusted_pixels a w h px))) as Hl.
  rewrite E in Hl at 2. exact Hl.
Qed.

End AdjustmentClaims.



Lemma hist_eq_equalizes_luma_only_witness :
  exists l s' px',
    apply_hist_eq 0%nat (one_pixel (10, 20, 30)) = (inr l, s') /\
    mem s' !! l = Some (PILImage 1 1 px') /\
    length px' = 1%nat.
Proof.
  destruct (hist_eq_equalizes_luma_only (one_pixel (10, 20, 30)) 0%nat 1%nat 1%nat
                                        [(10, 20, 30)] eq_refl)
    as (l & s' & px' & Hrun & Hl & Hlen & _).
  exists l, s', px'. auto.
Defined.

Lemma adjust_leaves_input_witness :
  mem (snd (adjust HistEq 0%nat (one_pixel (10, 20, 30)))) !! 0%nat
  = Some (PILImage 1 1 [(10, 20, 30)]).
Proof.
  apply (adjust_leaves_input HistEq (one_pixel (10, 20, 30)) 0%nat 1%nat 1%nat
                             [(10, 20, 30)] _ _ eq_refl (surjective_pairing _)).
Defined.

Lemma enhance_one_is_identity_witness :
  exists l s',
    adjust (Contrast 1) 0%nat (one_pixel (10, 20, 30)) = (inr l, s') /\
    mem s' !! l = Some (PILImage 1 1 [(10, 20, 30)]).
Proof.
  apply (enhance_one_is_identity (Contrast 1) (one_pixel (10, 20, 30)) 0%nat 1%nat 1%nat
                                 [(10, 20, 30)] 1).
  - reflexivity.
  - reflexivity.
  - right. left. reflexivity.
Defined.

(** ** The exposure curve *)

Lemma Q2R_one : Q2R 1 = 1%R.
Proof. unfold Q2R. simpl. lra. Qed.

Lemma Q2R_two : Q2R 2 = 2%R.
Proof. unfold Q2R. simpl. lra. Qed.

Lemma ln_2_pos : (0 < ln 2)%R.
Proof. rewrite <- ln_1. apply ln_increasing; lra. Qed.

Lemma ln_le x y : (0 < x)%R -> (x <= y)%R -> (ln x <= ln y)%R.
Proof.
  intros Hx [Hlt | ->]; [|lra].
  apply Rlt_le, ln_increasing; assumption.
Qed.

Lemma np_clip_val_top x : (1 <= x)%R -> np_clip_val 0 1 x = 1%R.
Proof.
  intros H. unfold np_clip_val, Rmin, Rmax.
  destruct (Rle_dec x 0); destruct (Rle_dec _ 1); lra.
Qed.

(** The curve of the code saturates at gain 2 and input 128/255. *)
Lemma code_curve_saturates :
  np_clip_val 0 1 (adjust_log_val 2 (img_as_float_val 128)) = 1%R.
Proof.
  apply np_clip_val_top. unfold adjust_log_val, np_log2, img_as_float_val.
  pose proof ln_2_pos as H2.
  assert (H : (ln 2 <= ln (1 + 128 / 255) * 2)%R).
  { replace (ln (1 + 128 / 255) * 2)%R
      with (ln ((1 + 128 / 255) * (1 + 128 / 255)))%R
      by (rewrite ln_mult by lra; lra).
    apply ln_le; lra. }
  apply (Rmult_le_reg_r (ln 2)); [exact H2|].
  replace (ln (1 + 128 / 255) / ln 2 * 2 * ln 2)%R with (ln (1 + 128 / 255) * 2)%R
    by (field; lra).
  lra.
Qed.

(** The curve of the specification does not. *)
Lemma spec_curve_below_one :
  (np_clip_val 0 1 (spec_exposure_curve 2 (img_as_float_val 128)) < 1)%R.
Proof.
  unfold spec_exposure_curve, img_as_float_val.
  assert (H3 : (0 < ln (1 + 2))%R) by (rewrite <- ln_1; apply ln_increasing; lra).
  assert (Hn : (0 < ln (1 + 2 * (128 / 255)) < ln (1 + 2))%R).
  { split; [rewrite <- ln_1 at 1|]; apply ln_increasing; lra. }
  assert (Hq : (0 < ln (1 + 2 * (128 / 255)) / ln (1 + 2) < 1)%R).
  { split.
    - apply Rdiv_lt_0_compat; lra.
    - apply (Rmult_lt_reg_r (ln (1 + 2))); [exact H3|].
      replace (ln (1 + 2 * (128 / 255)) / ln (1 + 2) * ln (1 + 2))%R
        with (ln (1 + 2 * (128 / 255)))%R by (field; lra).
      lra. }
  rewrite np_clip_val_id by lra. lra.
Qed.

(** C3, as stated, fails: at gain 2 on a pixel of value 128 the float that
    [adjust_exposure] clips and converts is 1, the curve of the
    specification gives less than 1. *)
Lemma exposure_differs_from_spec_curve :
  exists l s' c,
    adjust_exposure 0%nat 2 (one_pixel (128, 128, 128)) = (inr l, s') /\
    mem s' !! 4%nat = Some (F64Array 1 1 [(c, c, c)]) /\
    mem s' !! l = Some (PILImage 1 1 [pmap img_as_ubyte_val (c, c, c)]) /\
    c <> np_clip_val 0 1 (spec_exposure_curve (Q2R 2) (img_as_float_val 128)).
Proof.
  eexists. eexists.
  exists (np_clip_val 0 1 (adjust_log_val (Q2R 2) (img_as_float_val 128))).
  split; [apply (adjust_exposure_run _ _ _ 1%nat 1%nat [(128, 128, 128)]); reflexivity|].
  split; [reflexivity|]. split; [reflexivity|].
  rewrite Q2R_two. rewrite code_curve_saturates.
  pose proof spec_curve_below_one. lra.
Qed.

Section ExposureClaim.
Context {lib : ImagingLib} {rt : Runtime}.

(** C3, as amended.  For every finite gain and 8-bit input, exposure computes
    [gain * log2(1 + in)] on the normalised values [in = v / 255], clips
    the result to [0, 1], and stores each channel as the clipped value
    times 255 rounded to an integer next to it.  At gain 1 this is the
    curve of the specification; for a gain that is not negative it does
    not decrease with the input. *)
Theorem exposure_is_clipped_gain_log2 s image gain w h px :
  mem s !! image = Some (PILImage w h px) ->
  Forall u8_pixel px ->
  exists l s' px',
    adjust_exposure image gain s = (inr l, s') /\
    mem s' !! l = Some (PILImage w h px') /\
    Forall2 (on_channels (fun v r =>
               rounds (np_clip_val 0 1 (ln (1 + IZR v / 255) / ln 2 * Q2R gain) * 255) r))
            px px' /\
    ((gain == 1)%Q ->
     forall x, (ln (1 + x) / ln 2 * Q2R gain)%R = spec_exposure_curve (Q2R gain) x) /\
    ((0 <= gain)%Q ->
     forall x y, (0 <= x <= y)%R ->
       (np_clip_val 0 1 (ln (1 + x) / ln 2 * Q2R gain)
        <= np_clip_val 0 1 (ln (1 + y) / ln 2 * Q2R gain))%R).
Proof.
  intros Himg _. eexists. eexists.
  exists (to_ubyte (clipped (log_floats gain px))).
  split; [apply adjust_exposure_run; exact Himg|].
  split; [|split; [|split] ].
  - replace (5 + length (mem s))%nat with (length (mem s) + 5)%nat by lia.
    apply (lookup_pushes_last s [_; _; _; _; _]).
  - clear Himg. induction px as [|[[r g] b] px IH]; [constructor|].
    constructor; [|exact IH].
    cbn [on_channels pmap]. repeat split;
      apply img_as_ubyte_val_rounds, np_clip_val_unit.
  - intros Hone x. apply Qeq_eqR in Hone. rewrite Hone, Q2R_one.
    unfold spec_exposure_curve.
    replace (1 + 1 * x)%R with (1 + x)%R by lra.
    replace (1 + 1)%R with 2%R by lra. lra.
  - intros Hpos x y Hxy. apply np_clip_val_mono.
    assert (Hg : (0 <= Q2R gain)%R).
    { rewrite <- RMicromega.Q2R_0. apply Qle_Rle. exact Hpos. }
    pose proof ln_2_pos as H2.
    assert (Hln : (ln (1 + x) <= ln (1 + y))%R) by (apply ln_le; lra).
    apply Rmult_le_compat_r; [exact Hg|].
    apply Rmult_le_compat_r; [|exact Hln].
    apply Rlt_le, Rinv_0_lt_compat. exact H2.
Qed.

End ExposureClaim.

Lemma exposure_is_clipped_gain_log2_witness :
  exists l s' px',
    adjust_exposure 0%nat 1 (one_pixel (128, 128, 128)) = (inr l, s') /\
    mem s' !! l = Some (PILImage 1 1 px') /\
    Forall2 (on_channels (fun v r =>
               rounds (np_clip_val 0 1 (ln (1 + IZR v / 255) / ln 2 * Q2R 1) * 255) r))
            [(128, 128, 128)] px'.
Proof.
  destruct (exposure_is_clipped_gain_log2 (one_pixel (128, 128, 128)) 0%nat 1 1%nat 1%nat
                                          [(128, 128, 128)] eq_refl)
    as (l & s' & px' & Hrun & Hl & Hpx & _).
  { repeat constructor; unfold u8; lia. }
  exists l, s', px'. auto.
Defined.

(** ** Saving *)

Section SaveClaims.
Context {lib : ImagingLib} {rt : Runtime}.

Lemma split_no_sep sep e : has_char sep e = false -> split sep e = [e].
Proof.
  induction e as [|c e IH]; simpl; [reflexivity|].
  intros H. apply orb_false_iff in H as [Hc He].
  rewrite Hc, (IH He). reflexivity.
Qed.

Lemma split_prefix sep a b :
  exists p ps,
    split sep (a +:+ String sep b) = p :: ps /\ ps <> [] /\
    last_piece ps = last_piece (split sep b).
Proof.
  assert (Hb : split sep b <> []).
  { destruct b as [|c b]; simpl; [discriminate|].
    destruct (Ascii.eqb c sep); [discriminate|].
    destruct (split sep b); discriminate. }
  induction a as [|c a (p & ps & E & Hne & Hlast)]; simpl.
  - rewrite Ascii.eqb_refl. eauto.
  - rewrite E. destruct (Ascii.eqb c sep).
    + exists EmptyString, (p :: ps). split; [reflexivity|]. split; [discriminate|].
      rewrite <- Hlast. unfold last_piece. destruct ps; [contradiction | reflexivity].
    + eauto.
Qed.

(** The piece after the last dot of [stem.e] is [e]. *)
Lemma extension_of_path stem e :
  has_char "." e = false ->
  last_piece (split "." (stem +:+ "." +:+ e)) = e.
Proof.
  intros He.
  destruct (split_prefix "." stem e) as (p & ps & E & Hne & Hlast).
  change (stem +:+ "." +:+ e) with (stem +:+ String "." e).
  rewrite E. unfold last_piece in *.
  destruct ps; [contradiction|]. simpl in *. rewrite Hlast.
  rewrite (split_no_sep _ _ He). reflexivity.
Qed.

(** C6.  For a path [stem.e], where [e] is what follows the last dot, the
    options handed to [Image.save] depend on [e] in lower case only:
    quality, optimisation and no chroma subsampling for [jpg] and [jpeg],
    compression level 1 for [png], none for anything else; the image is
    then written under that path with these options. *)
Theorem save_image_options_by_extension s image w h px stem e quality :
  mem s !! image = Some (PILImage w h px) ->
  has_char "." e = false ->
  exists opts,
    (lower e = "jpg" \/ lower e = "jpeg" ->
     opts = [("quality", OInt quality); ("optimize", OBool true);
             ("subsampling", OInt 0)]) /\
    (lower e = "png" -> opts = [("compress_level", OInt 1)]) /\
    (lower e <> "jpg" -> lower e <> "jpeg" -> lower e <> "png" -> opts = []) /\
    (save_error (stem +:+ "." +:+ e) opts = None ->
     save_image image (stem +:+ "." +:+ e) quality s
     = (inr tt,
        mkSys (mem s) (stdin s)
              (out s ++ [Save (stem +:+ "." +:+ e) opts w h px;
                         Print ("Saved: " +:+ stem +:+ "." +:+ e)]))) /\
    (forall err, save_error (stem +:+ "." +:+ e) opts = Some err ->
     save_image image (stem +:+ "." +:+ e) quality s = (inl err, s)).
Proof.
  intros Himg He.
  exists (save_options (stem +:+ "." +:+ e) quality).
  unfold save_options at 1 2 3. rewrite (extension_of_path _ _ He).
  split; [|split; [|split; [|split]]].
  - intros [-> | ->]; reflexivity.
  - intros ->. reflexivity.
  - intros H1 H2 H3.
    apply String.eqb_neq in H1, H2, H3. rewrite H1, H2, H3. reflexivity.
  - intros Hok. unfold save_image, Image_save.
    erewrite bind_run.
    2:{ rewrite (bind_run _ _ _ _ _ (deref_run _ _ _ Himg)). rewrite Hok. reflexivity. }
    unfold print, emit. cbn [mem stdin out]. rewrite <- app_assoc. reflexivity.
  - intros err Herr. unfold save_image, Image_save.
    erewrite bind_raise; [reflexivity|].
    rewrite (bind_run _ _ _ _ _ (deref_run _ _ _ Himg)). rewrite Herr. reflexivity.
Qed.

(** A path without any dot is taken whole as its extension. *)
Lemma extension_without_dot path :
  has_char "." path = false -> last_piece (split "." path) = path.
Proof. intros H. rewrite (split_no_sep _ _ H). reflexivity. Qed.

End SaveClaims.

Lemma save_image_options_by_extension_witness :
  exists opts,
    opts = [("quality", OInt 100); ("optimize", OBool true); ("subsampling", OInt 0)] /\
    save_image 0%nat "OUT.Jpg" 100 (one_pixel (10, 20, 30))
    = (inr tt,
       mkSys [PILImage 1 1 [(10, 20, 30)]] []
             [Save "OUT.Jpg" opts 1 1 [(10, 20, 30)]; Print "Saved: OUT.Jpg"]).
Proof.
  destruct (save_image_options_by_extension (one_pixel (10, 20, 30)) 0%nat 1%nat 1%nat
              [(10, 20, 30)] "OUT" "Jpg" 100 eq_refl eq_refl)
    as (opts & Hjpg & _ & _ & Hok & _).
  exists opts. split; [apply Hjpg; left; reflexivity|].
  apply Hok. reflexivity.
Defined.

(** ** The controller *)

Lemma bind_inv {A B : Type} (m : M A) (f : A -> M B) s b s' :
  (m ≫= f) s = (inr b, s') ->
  exists a s1, m s = (inr a, s1) /\ f a s1 = (inr b, s').
Proof.
  unfold mbind, M_bind. destruct (m s) as [[e|a] s1]; [discriminate|]. eauto.
Qed.

Lemma mret_inv {A : Type} (a b : A) s s' :
  (mret a : M A) s = (inr b, s') -> a = b /\ s = s'.
Proof. unfold mret, M_ret. intros H. injection H as <- <-. auto. Qed.

Lemma say_say s evs evs' : say (say s evs) evs' = say s (evs ++ evs').
Proof. unfold say. simpl. rewrite <- app_assoc. reflexivity. Qed.

Lemma print_run msg s : print msg s = (inr tt, say s [Print msg]).
Proof. reflexivity. Qed.

Lemma input_run prompt s line rest :
  stdin s = line :: rest ->
  input prompt s = (inr line, mkSys (mem s) rest (out s ++ [Prompt prompt])).
Proof. intros H. unfold input, mbind, M_bind, emit, read_line. simpl. rewrite H. reflexivity. Qed.

Lemma input_eof prompt s :
  stdin s = [] -> input prompt s = (inl EOFError, say s [Prompt prompt]).
Proof.
  intros H. unfold input, mbind, M_bind, emit, read_line, say. simpl.
  rewrite H. reflexivity.
Qed.

Lemma input_inv prompt s line s' :
  input prompt s = (inr line, s') ->
  exists rest, stdin s = line :: rest /\
               s' = mkSys (mem s) rest (out s ++ [Prompt prompt]).
Proof.
  destruct (stdin s) as [|l rest] eqn:E.
  - rewrite (input_eof _ _ E). discriminate.
  - rewrite (input_run _ _ _ _ E). intros H. injection H as <- <-. eauto.
Qed.

Section ControllerRuns.
Context {lib : ImagingLib} {rt : Runtime}.

Lemma Image_show_run s image w h px :
  mem s !! image = Some (PILImage w h px) ->
  Image_show image s = (inr tt, say s [Show w h px]).
Proof.
  intros H. unfold Image_show.
  rewrite (bind_run _ _ _ _ _ (deref_run _ _ _ H)). reflexivity.
Qed.

Lemma Image_show_mem s image r s' :
  Image_show image s = (r, s') -> mem s' = mem s /\ stdin s' = stdin s.
Proof.
  unfold Image_show, mbind, M_bind, deref.
  destruct (mem s !! image) as [[w h px|w h px|w h vs|w h px]|];
    intros H; injection H as <- <-; auto.
Qed.

Lemma confirm_mem ses s r s' :
  confirm ses s = (r, s') -> mem s' = mem s /\ stdin s' = stdin s.
Proof.
  unfold confirm. destruct (modified ses).
  - unfold mbind, M_bind. rewrite print_run.
    destruct (Image_show (current ses) (say s [Print "Applied."])) as [[e|[]] s1] eqn:E;
      intros H; injection H as <- <-; apply Image_show_mem in E; exact E.
  - intros H. injection H as <- <-. auto.
Qed.

Lemma confirm_pending ses s w h px :
  modified ses = true ->
  mem s !! current ses = Some (PILImage w h px) ->
  confirm ses s = (inr tt, say s [Print "Applied."; Show w h px]).
Proof.
  intros Hm Hc. unfold confirm. rewrite Hm.
  rewrite (bind_run _ _ _ _ _ (print_run _ _)).
  rewrite (Image_show_run _ _ w h px) by exact Hc.
  rewrite say_say. reflexivity.
Qed.

Lemma confirm_clean ses s : modified ses = false -> confirm ses s = (inr tt, s).
Proof. intros Hm. unfold confirm. rewrite Hm. reflexivity. Qed.

(** One pass, up to the point where the choice is known. *)
Lemma iteration_read ses s choice rest :
  stdin s = choice :: rest ->
  iteration ses s
  = (if String.eqb choice "0" then mret None
     else ses' ← dispatch choice ses; _ ← confirm ses'; mret (Some ses'))
      (after_choice s rest).
Proof.
  intros Hin. unfold iteration.
  rewrite (bind_run _ _ _ _ _ (print_run _ _)).
  erewrite bind_run by (apply input_run; exact Hin).
  unfold after_choice, say. cbn [mem stdin out]. rewrite <- app_assoc. reflexivity.
Qed.

Lemma iteration_eof ses s :
  stdin s = [] ->
  iteration ses s = (inl EOFError, say s [Print menu; Prompt "Choose: "]).
Proof.
  intros Hin. unfold iteration.
  rewrite (bind_run _ _ _ _ _ (print_run _ _)).
  erewrite bind_raise by (apply input_eof; exact Hin).
  rewrite say_say. reflexivity.
Qed.

(** A pass that goes on came through [dispatch] and [confirm]. *)
Lemma iteration_inv ses s ses' s' :
  iteration ses s = (inr (Some ses'), s') ->
  exists choice rest s2,
    stdin s = choice :: rest /\ choice <> "0" /\
    dispatch choice ses (after_choice s rest) = (inr ses', s2) /\
    confirm ses' s2 = (inr tt, s').
Proof.
  intros H. destruct (stdin s) as [|choice rest] eqn:Hin.
  - rewrite (iteration_eof _ _ Hin) in H. discriminate.
  - rewrite (iteration_read _ _ _ _ Hin) in H.
    destruct (String.eqb_spec choice "0") as [->|Hne].
    + apply mret_inv in H as [H _]. discriminate.
    + apply bind_inv in H as (a & s2 & Hd & H).
      apply bind_inv in H as ([] & s3 & Hc & H).
      apply mret_inv in H as [Ha <-]. injection Ha as ->.
      exists choice, rest, s2. auto.
Qed.

Lemma not_digit choice :
  ~ In choice digits ->
  String.eqb choice "0" = false /\ String.eqb choice "1" = false /\
  String.eqb choice "2" = false /\ String.eqb choice "3" = false /\
  String.eqb choice "4" = false /\ String.eqb choice "5" = false /\
  String.eqb choice "6" = false /\ String.eqb choice "7" = false /\
  String.eqb choice "8" = false /\ String.eqb choice "9" = false.
Proof.
  intros H. repeat split; apply String.eqb_neq; intros ->; apply H; simpl; tauto.
Qed.

(** Choices 1 to 7 set the flag whenever they complete. *)
Lemma dispatch_adjusts choice ses s ses' s' :
  In choice ["1"; "2"; "3"; "4"; "5"; "6"; "7"] ->
  dispatch choice ses s = (inr ses', s') ->
  modified ses' = true.
Proof.
  intros Hin H. simpl in Hin.
  destruct Hin as [<-|[<-|[<-|[<-|[<-|[<-|[<-|[]]]]]]]]; simpl in H;
    repeat (apply bind_inv in H as (? & ? & _ & H));
    apply mret_inv in H as [<- _]; reflexivity.
Qed.

(** Choice 8, choice 9 with nothing to save, and anything that is not a
    choice: the session and the heap stay as they were. *)
Lemma dispatch_idle choice ses s ses' s' :
  choice = "8" \/ (choice = "9" /\ modified ses = false) \/ ~ In choice digits ->
  dispatch choice ses s = (inr ses', s') ->
  ses' = ses /\ mem s' = mem s.
Proof.
  intros [-> | [[-> Hm] | Hinv]] H.
  - simpl in H. apply bind_inv in H as (? & s1 & Hs & H).
    apply mret_inv in H as [<- <-]. apply Image_show_mem in Hs as [Hs _]. auto.
  - unfold dispatch in H. simpl in H. rewrite Hm in H.
    apply bind_inv in H as (? & s1 & Hs & H).
    apply mret_inv in H as [<- <-]. rewrite print_run in Hs.
    injection Hs as _ <-. auto.
  - apply not_digit in Hinv as (_ & H1 & H2 & H3 & H4 & H5 & H6 & H7 & H8 & H9).
    unfold dispatch in H. rewrite H1, H2, H3, H4, H5, H6, H7, H8, H9 in H.
    apply bind_inv in H as (? & s1 & Hs & H).
    apply mret_inv in H as [<- <-]. rewrite print_run in Hs.
    injection Hs as _ <-. auto.
Qed.

(** The choices, sorted. *)
Lemma choice_cases choice ses :
  choice = "0" \/ In choice ["1"; "2"; "3"; "4"; "5"; "6"; "7"] \/
  (choice = "9" /\ modified ses = true) \/
  (choice = "8" \/ (choice = "9" /\ modified ses = false) \/ ~ In choice digits).
Proof.
  destruct (in_dec String.string_dec choice digits) as [Hin | Hout];
    [|right; right; right; right; right; exact Hout].
  simpl in Hin.
  destruct Hin as [<-|[<-|[<-|[<-|[<-|[<-|[<-|[<-|[<-|[<-|[]]]]]]]]]]];
    simpl; try tauto.
  destruct (modified ses); tauto.
Qed.

End ControllerRuns.

(** Gamma 1 gives back every 8-bit value. *)
Lemma gamma_one_val gamma v :
  (gamma == 1)%Q -> u8 v ->
  img_as_ubyte_val (np_clip_val 0 1 (adjust_gamma_val (Q2R gamma) (img_as_float_val v))) = v.
Proof.
  intros Hg [H0 H255]. apply Qeq_eqR in Hg. rewrite Hg, Q2R_one.
  assert (Hx : (0 <= img_as_float_val v <= 1)%R).
  { unfold img_as_float_val. apply IZR_le in H0, H255. lra. }
  assert (Hp : adjust_gamma_val 1 (img_as_float_val v) = img_as_float_val v).
  { unfold adjust_gamma_val, np_power.
    destruct (Req_EM_T (img_as_float_val v) 0) as [E|Hne].
    - destruct (Req_EM_T 1 0); [lra | symmetry; exact E].
    - apply Rpower_1. lra. }
  rewrite Hp, np_clip_val_id by exact Hx.
  rewrite (proj1 (img_as_ubyte_val_unit _ Hx)).
  unfold img_as_float_val.
  replace (IZR v / 255 * 255)%R with (IZR v) by lra.
  apply rint_IZR.
Qed.

Lemma gamma_one_pixels gamma (px : list pixel) :
  (gamma == 1)%Q -> Forall u8_pixel px ->
  to_ubyte (clipped (gamma_floats gamma px)) = px.
Proof.
  intros Hg. unfold to_ubyte, clipped, gamma_floats, normalized.
  induction 1 as [|[[r g] b] px (Hr & Hgr & Hb) _ IH]; [reflexivity|].
  cbn [map pmap]. rewrite IH.
  rewrite !gamma_one_val by assumption. reflexivity.
Qed.

(** Decide the comparisons of a known choice with the menu entries. *)
Ltac known_choice :=
  repeat match goal with
         | |- context [String.eqb ?a ?b] =>
             let v := eval vm_compute in (String.eqb a b) in
             change (String.eqb a b) with v
         end;
  cbv iota.

Section ControllerClaims.
Context {lib : ImagingLib} {rt : Runtime}.

Lemma float_run line q s : float_of_string line = inr q -> float line s = (inr q, s).
Proof. intros H. unfold float. rewrite H. reflexivity. Qed.

Lemma load_raises s path e :
  open_rgb path = inl e ->
  try_except (img ← load_image path; mret (Some img))
             (fun e => _ ← print ("Error loading image: " +:+ str_exn e); mret None) s
  = (inr None, say s [Print ("Error loading image: " +:+ str_exn e)]).
Proof. intros H. unfold try_except, load_image, mbind, M_bind. rewrite H. reflexivity. Qed.

Lemma load_success s path w h px :
  open_rgb path = inr (w, h, px) ->
  try_except (img ← load_image path; mret (Some img))
             (fun e => _ ← print ("Error loading image: " +:+ str_exn e); mret None) s
  = (inr (Some (length (mem s))), push s (PILImage w h px)).
Proof. intros H. unfold try_except, load_image, mbind, M_bind. rewrite H. reflexivity. Qed.

Lemma enough_fuel_run s : enough_fuel s = (inr (S (length (stdin s))), s).
Proof. reflexivity. Qed.

Lemma Image_copy_run s image w h px :
  mem s !! image = Some (PILImage w h px) ->
  Image_copy image s = (inr (length (mem s)), push s (PILImage w h px)).
Proof.
  intros H. unfold Image_copy.
  rewrite (bind_run _ _ _ _ _ (deref_run _ _ _ H)). reflexivity.
Qed.

(** C9.  When the image cannot be loaded, [main] prints the error and
    returns: one prompt, one message, no further line read, and the
    process ends with status 0. *)
Theorem load_failure_ends_run s path rest e :
  stdin s = path :: rest ->
  open_rgb path = inl e ->
  main s
  = (inr (Some tt),
     mkSys (mem s) rest
           (out s ++ [Prompt "Path: ";
                      Print ("Error loading image: " +:+ str_exn e)]))
  /\ exit_status (fst (main s)) = 0.
Proof.
  intros Hin Hopen.
  assert (E : main s
              = (inr (Some tt),
                 mkSys (mem s) rest
                       (out s ++ [Prompt "Path: ";
                                  Print ("Error loading image: " +:+ str_exn e)]))).
  { unfold main.
    erewrite bind_run by (apply input_run; exact Hin).
    erewrite bind_run by (apply load_raises; exact Hopen).
    unfold say. cbn [mem stdin out]. rewrite <- app_assoc. reflexivity. }
  split; [exact E | rewrite E; reflexivity].
Qed.

(** C4.  Choice 9 with the flag set asks for a path, saves the current
    image there with quality 100 and clears the flag; with the flag clear it
    prints the notice, reads nothing more and saves nothing.  So does a
    session whose first choice is 9. *)
Theorem choice_9_saves_when_modified ses s rest :
  stdin s = "9" :: rest ->
  (modified ses = false ->
   iteration ses s
   = (inr (Some ses), say (after_choice s rest) [Print "Nothing to save."]))
  /\
  (modified ses = true ->
   forall path rest' w h px,
     rest = path :: rest' ->
     mem s !! current ses = Some (PILImage w h px) ->
     save_error path (save_options path 100) = None ->
     iteration ses s
     = (inr (Some (mkSession (current ses) false)),
        mkSys (mem s) rest'
              (out s ++ [Print menu; Prompt "Choose: "; Prompt "Save as: ";
                         Save path (save_options path 100) w h px;
                         Print ("Saved: " +:+ path)])))
  /\
  (forall path rest' w h px,
     open_rgb path = inr (w, h, px) ->
     main (mkSys [] (path :: "9" :: "0" :: rest') [])
     = (inr (Some tt),
        mkSys [PILImage w h px; PILImage w h px] rest'
              [Prompt "Path: "; Print menu; Prompt "Choose: ";
               Print "Nothing to save."; Print menu; Prompt "Choose: "])).
Proof.
  intros Hin. split; [|split].
  - intros Hm. rewrite (iteration_read _ _ _ _ Hin). known_choice.
    erewrite bind_run.
    2:{ unfold dispatch. known_choice. rewrite Hm.
        rewrite (bind_run _ _ _ _ _ (print_run _ _)). reflexivity. }
    rewrite (bind_run _ _ _ _ _ (confirm_clean _ _ Hm)). reflexivity.
  - intros Hm path rest' w h px -> Hcur Hok.
    rewrite (iteration_read _ _ _ _ Hin). known_choice.
    erewrite bind_run.
    2:{ unfold dispatch. known_choice. rewrite Hm.
        erewrite bind_run by (apply input_run; reflexivity).
        erewrite bind_run.
        2:{ unfold save_image, Image_save.
            erewrite bind_run.
            2:{ erewrite bind_run by (apply deref_run; exact Hcur).
                cbv beta iota. unfold default_quality. rewrite Hok. reflexivity. }
            apply print_run. }
        reflexivity. }
    erewrite bind_run by (apply confirm_clean; reflexivity).
    unfold mret, M_ret, say, emit, after_choice. cbn [mem stdin out].
    rewrite <- !app_assoc. reflexivity.
  - intros path rest' w h px Hopen. unfold main.
    erewrite bind_run by (apply input_run; reflexivity).
    erewrite bind_run by (apply load_success; exact Hopen).
    cbv beta iota.
    erewrite bind_run by (apply Image_copy_run; reflexivity).
    rewrite (bind_run _ _ _ _ _ (enough_fuel_run _)).
    cbn [push mem stdin out length]. cbn [main_loop].
    erewrite bind_run.
    2:{ erewrite iteration_read by reflexivity. known_choice.
        erewrite bind_run.
        2:{ unfold dispatch. known_choice. cbn [modified].
            rewrite (bind_run _ _ _ _ _ (print_run _ _)). reflexivity. }
        erewrite bind_run by (apply confirm_clean; reflexivity). reflexivity. }
    cbv beta iota.
    erewrite bind_run.
    2:{ erewrite iteration_read by reflexivity. known_choice.
        reflexivity. }
    reflexivity.
Qed.

(** C10.  In a pass that goes on: choices 1 to 7 leave the flag set,
    whatever the adjustment did to the pixels; the flag goes from set to
    clear only under choice 9; choice 8, choice 9 with the flag clear and
    anything that is not a choice leave the session and the heap as they
    were.  Brightness 1 and gamma 1 return the pixels they were given, and
    the flag is set all the same. *)
Theorem modified_flag_discipline ses s choice rest :
  stdin s = choice :: rest ->
  (forall ses' s',
     iteration ses s = (inr (Some ses'), s') ->
     (In choice ["1"; "2"; "3"; "4"; "5"; "6"; "7"] -> modified ses' = true) /\
     (modified ses = true -> modified ses' = false -> choice = "9") /\
     (choice = "8" \/ (choice = "9" /\ modified ses = false) \/ ~ In choice digits ->
      ses' = ses /\ mem s' = mem s))
  /\
  (forall line rest' f w h px,
     choice = "3" \/ (choice = "1" /\ Forall u8_pixel px) ->
     rest = line :: rest' ->
     float_of_string line = inr f -> (f == 1)%Q ->
     mem s !! current ses = Some (PILImage w h px) ->
     exists ses' s',
       iteration ses s = (inr (Some ses'), s') /\
       modified ses' = true /\
       current ses' <> current ses /\
       mem s' !! current ses' = Some (PILImage w h px)).
Proof.
  intros Hin. split.
  - intros ses' s' Hrun.
    apply iteration_inv in Hrun as (c & r & s2 & Hin' & Hne & Hd & Hc).
    rewrite Hin in Hin'. injection Hin' as <- <-.
    apply confirm_mem in Hc as [Hmem _].
    split; [|split].
    + intros H17. eapply dispatch_adjusts; eassumption.
    + intros Hset Hclear.
      destruct (choice_cases choice ses) as [H0 | [H17 | [[H9 _] | Hidle]]].
      * contradiction.
      * rewrite (dispatch_adjusts _ _ _ _ _ H17 Hd) in Hclear. discriminate.
      * exact H9.
      * destruct (dispatch_idle _ _ _ _ _ Hidle Hd) as [-> _]. congruence.
    + intros Hidle.
      destruct (dispatch_idle _ _ _ _ _ Hidle Hd) as [-> Hm2].
      split; [reflexivity | rewrite Hmem, Hm2; reflexivity].
  - intros line rest' f w h px Hchoice -> Hfloat Hone Hcur.
    assert (Hlt : (current ses < length (mem s))%nat)
      by (eapply lookup_lt_Some; exact Hcur).
    rewrite (iteration_read _ _ _ _ Hin).
    destruct Hchoice as [-> | [-> Hpx]]; known_choice.
    + exists (mkSession (1 + length (mem s)) true). eexists.
      split; [|split; [reflexivity | split; [simpl; lia|]]].
      * erewrite bind_run.
        2:{ unfold dispatch. known_choice.
            erewrite bind_run by (apply input_run; reflexivity).
            erewrite bind_run by (apply float_run; exact Hfloat).
            erewrite bind_run by (apply adjust_brightness_run; exact Hcur).
            reflexivity. }
        erewrite bind_run.
        2:{ apply (confirm_pending _ _ w h (blend_pixels f (degenerate_Brightness w h px) px));
              [reflexivity|].
            cbn [current]. rewrite lookup_pushes_new. reflexivity. }
        reflexivity.
      * cbn [current]. unfold say. cbn [mem].
        change (mem (pushes ?x ?os) !! (1 + length (mem s))%nat)
          with (mem (pushes s os) !! (1 + length (mem s))%nat).
        rewrite lookup_pushes_new. cbn [lookup list_lookup].
        rewrite (blend_pixels_one _ _ _ Hone). reflexivity.
    + assert (Hpos : (0 <= f)%Q) by (rewrite Hone; discriminate).
      exists (mkSession (5 + length (mem s)) true). eexists.
      split; [|split; [reflexivity | split; [simpl; lia|]]].
      * erewrite bind_run.
        2:{ unfold dispatch. known_choice.
            erewrite bind_run by (apply input_run; reflexivity).
            erewrite bind_run by (apply float_run; exact Hfloat).
            erewrite bind_run by (apply apply_gamma_run; [exact Hcur | exact Hpos]).
            reflexivity. }
        erewrite bind_run.
        2:{ apply (confirm_pending _ _ w h (to_ubyte (clipped (gamma_floats f px))));
              [reflexivity|].
            cbn [current]. rewrite lookup_pushes_new. reflexivity. }
        reflexivity.
      * cbn [current]. unfold say. cbn [mem].
        change (mem (pushes ?x ?os) !! (5 + length (mem s))%nat)
          with (mem (pushes s os) !! (5 + length (mem s))%nat).
        rewrite lookup_pushes_new. cbn [lookup list_lookup].
        rewrite (gamma_one_pixels _ _ Hone Hpx). reflexivity.
Qed.

(** C2, at the input where the code departs from it.  With a change
    pending, a pass that only shows the image, or that reads something that
    is not a choice, still prints the confirmation and shows the image
    again. *)
Theorem confirmation_repeats_while_pending ses s choice rest w h px :
  modified ses = true ->
  mem s !! current ses = Some (PILImage w h px) ->
  stdin s = choice :: rest ->
  (choice = "8" ->
   iteration ses s
   = (inr (Some ses),
      say (after_choice s rest) [Show w h px; Print "Applied."; Show w h px]))
  /\
  (~ In choice digits ->
   iteration ses s
   = (inr (Some ses),
      say (after_choice s rest) [Print "Invalid."; Print "Applied."; Show w h px])).
Proof.
  intros Hm Hcur Hin. rewrite (iteration_read _ _ _ _ Hin). split.
  - intros ->. known_choice.
    erewrite bind_run.
    2:{ unfold dispatch. known_choice.
        erewrite bind_run by (apply Image_show_run; exact Hcur). reflexivity. }
    erewrite bind_run by (apply confirm_pending; [exact Hm | exact Hcur]).
    rewrite say_say. reflexivity.
  - intros Hinv.
    apply not_digit in Hinv as (H0 & H1 & H2 & H3 & H4 & H5 & H6 & H7 & H8 & H9).
    rewrite H0.
    erewrite bind_run.
    2:{ unfold dispatch. rewrite H1, H2, H3, H4, H5, H6, H7, H8, H9.
        rewrite (bind_run _ _ _ _ _ (print_run _ _)). reflexivity. }
    erewrite bind_run by (apply confirm_pending; [exact Hm | exact Hcur]).
    rewrite say_say. reflexivity.
Qed.

End ControllerClaims.

(** ** The loop always ends within its bound

    Nothing puts lines back on the input, and every pass that goes on
    reads at least one. *)

Lemma consumes_ret {A : Type} (a : A) : consumes (mret a : M A).
Proof. intros s r s' H. injection H as <- <-. lia. Qed.

Lemma consumes_raise {A : Type} (e : exn) : consumes (raise e : M A).
Proof. intros s r s' H. injection H as <- <-. lia. Qed.

Lemma consumes_bad_type {A : Type} : consumes (bad_type : M A).
Proof. apply consumes_raise. Qed.

Lemma consumes_bind {A B : Type} (m : M A) (f : A -> M B) :
  consumes m -> (forall a, consumes (f a)) -> consumes (m ≫= f).
Proof.
  intros Hm Hf s r s'. unfold mbind, M_bind.
  destruct (m s) as [[e|a] s1] eqn:E; intros H.
  - injection H as <- <-. eapply Hm; exact E.
  - apply Hm in E. apply Hf in H. lia.
Qed.

Lemma consumes_alloc o : consumes (alloc o).
Proof. intros s r s' H. injection H as <- <-. simpl. lia. Qed.

Lemma consumes_deref l : consumes (deref l).
Proof.
  intros s r s'. unfold deref.
  destruct (mem s !! l); intros H; injection H as <- <-; lia.
Qed.

Lemma consumes_assign l o : consumes (assign l o).
Proof. intros s r s' H. injection H as <- <-. simpl. lia. Qed.

Lemma consumes_emit e : consumes (emit e).
Proof. intros s r s' H. injection H as <- <-. simpl. lia. Qed.

Lemma consumes_read_line : consumes read_line.
Proof.
  intros s r s'. unfold read_line.
  destruct (stdin s) eqn:E; intros H; injection H as <- <-; simpl; rewrite ?E; simpl; lia.
Qed.

Create HintDb consumes.
#[local] Hint Resolve consumes_ret consumes_raise consumes_bad_type consumes_alloc
  consumes_deref consumes_assign consumes_emit consumes_read_line : consumes.

Ltac consumes_tac :=
  repeat first
    [ solve [auto with consumes]
    | apply consumes_bind; [|intros ?]
    | match goal with
      | |- consumes (match ?x with _ => _ end) => destruct x
      end ].

Section Consumes.
Context {lib : ImagingLib} {rt : Runtime}.

Lemma consumes_print msg : consumes (print msg).
Proof. unfold print. consumes_tac. Qed.

Lemma consumes_input prompt : consumes (input prompt).
Proof. unfold input. consumes_tac. Qed.

Lemma consumes_float line : consumes (float line).
Proof. unfold float. consumes_tac. Qed.

Lemma consumes_Image_show image : consumes (Image_show image).
Proof. unfold Image_show. consumes_tac. Qed.

Lemma consumes_Image_blend im1 im2 alpha : consumes (Image_blend im1 im2 alpha).
Proof. unfold Image_blend. consumes_tac. Qed.

Lemma consumes_Image_fromarray arr : consumes (Image_fromarray arr).
Proof. unfold Image_fromarray. consumes_tac. Qed.

Lemma consumes_np_array image : consumes (np_array image).
Proof. unfold np_array. consumes_tac. Qed.

Lemma consumes_img_as_float arr : consumes (img_as_float arr).
Proof. unfold img_as_float. consumes_tac. Qed.

Lemma consumes_img_as_ubyte arr : consumes (img_as_ubyte arr).
Proof. unfold img_as_ubyte. consumes_tac. Qed.

Lemma consumes_np_clip arr lo hi : consumes (np_clip arr lo hi).
Proof. unfold np_clip. consumes_tac. Qed.

Lemma consumes_cv2_cvtColor arr code : consumes (cv2_cvtColor arr code).
Proof. unfold cv2_cvtColor. consumes_tac. Qed.

#[local] Hint Resolve consumes_print consumes_input consumes_float consumes_Image_show
  consumes_Image_blend consumes_Image_fromarray consumes_np_array
  consumes_img_as_float consumes_img_as_ubyte consumes_np_clip
  consumes_cv2_cvtColor : consumes.

Lemma consumes_adjust a image : consumes (adjust a image).
Proof.
  destruct a; simpl;
    unfold apply_gamma, apply_hist_eq, adjust_brightness, adjust_contrast,
      adjust_sharpness, adjust_saturation, adjust_exposure,
      exposure_adjust_gamma, exposure_adjust_log, cv2_equalizeHist_channel0,
      set_channel0, enhance, ImageEnhance_Brightness, ImageEnhance_Contrast,
      ImageEnhance_Sharpness, ImageEnhance_Color;
    consumes_tac.
Qed.

Lemma consumes_save_image image path quality : consumes (save_image image path quality).
Proof. unfold save_image, Image_save. consumes_tac. Qed.

#[local] Hint Resolve consumes_save_image : consumes.

Lemma consumes_dispatch choice ses : consumes (dispatch choice ses).
Proof.
  pose proof (fun g => consumes_adjust (Gamma g) (current ses)) as H1.
  pose proof (consumes_adjust HistEq (current ses)) as H2.
  pose proof (fun f => consumes_adjust (Brightness f) (current ses)) as H3.
  pose proof (fun f => consumes_adjust (Contrast f) (current ses)) as H4.
  pose proof (fun f => consumes_adjust (Sharpness f) (current ses)) as H5.
  pose proof (fun f => consumes_adjust (Saturation f) (current ses)) as H6.
  pose proof (fun g => consumes_adjust (Exposure g) (current ses)) as H7.
  simpl in H1, H2, H3, H4, H5, H6, H7.
  unfold dispatch.
  repeat match goal with
         | |- consumes (if ?b then _ else _) => destruct b
         end;
    consumes_tac.
Qed.

Lemma iteration_reads_a_line ses s ses' s' :
  iteration ses s = (inr (Some ses'), s') ->
  (length (stdin s') < length (stdin s))%nat.
Proof.
  intros H. apply iteration_inv in H as (choice & rest & s2 & Hin & _ & Hd & Hc).
  apply consumes_dispatch in Hd. apply confirm_mem in Hc as [_ Hc].
  rewrite Hc, Hin. simpl in *. lia.
Qed.

Lemma main_loop_within_bound fuel ses s r s' :
  (length (stdin s) < fuel)%nat ->
  main_loop fuel ses s = (r, s') ->
  r <> inr None.
Proof.
  revert ses s. induction fuel as [|fuel IH]; intros ses s Hlt; [lia|].
  simpl. unfold mbind, M_bind.
  destruct (iteration ses s) as [[e | [ses1|]] s1] eqn:E; intros H.
  - injection H as <- <-. discriminate.
  - apply iteration_reads_a_line in E. eapply IH; [|exact H]. lia.
  - injection H as <- <-. discriminate.
Qed.

(** [main] never stops for lack of passes: it returns or raises. *)
Lemma main_within_bound s r s' : main s = (r, s') -> r <> inr None.
Proof.
  unfold main. intros H.
  destruct (stdin s) as [|path rest] eqn:Hin.
  - erewrite bind_raise in H by (apply input_eof; exact Hin).
    injection H as <- <-. discriminate.
  - erewrite bind_run in H by (apply input_run; exact Hin).
    destruct (open_rgb path) as [e | [[w h] px]] eqn:Hopen.
    + erewrite bind_run in H by (apply load_raises; exact Hopen).
      injection H as <- <-. discriminate.
    + erewrite bind_run in H by (apply load_success; exact Hopen).
      cbv beta iota in H.
      erewrite bind_run in H by (apply Image_copy_run; apply lookup_push_new).
      rewrite (bind_run _ _ _ _ _ (enough_fuel_run _)) in H.
      eapply main_loop_within_bound; [|exact H]. lia.
Qed.

End Consumes.

(** ** Concrete runs *)

Lemma load_failure_ends_run_witness :
  main (mkSys [] ["nofile"; "9"] [])
  = (inr (Some tt),
     mkSys [] ["9"]
           [Prompt "Path: ";
            Print "Error loading image: No such file or directory: nofile"])
  /\ exit_status (fst (main (mkSys [] ["nofile"; "9"] []))) = 0.
Proof.
  apply (load_failure_ends_run (mkSys [] ["nofile"; "9"] []) "nofile" ["9"]
           (OtherError "No such file or directory: nofile")); reflexivity.
Defined.

Lemma choice_9_saves_when_modified_witness :
  iteration (mkSession 0%nat true) (mkSys [PILImage 1 1 [(10, 20, 30)]] ["9"; "out.png"; "0"] [])
  = (inr (Some (mkSession 0%nat false)),
     mkSys [PILImage 1 1 [(10, 20, 30)]] ["0"]
           [Print menu; Prompt "Choose: "; Prompt "Save as: ";
            Save "out.png" [("compress_level", OInt 1)] 1 1 [(10, 20, 30)];
            Print "Saved: out.png"]).
Proof.
  apply (proj1 (proj2 (choice_9_saves_when_modified
                         (mkSession 0%nat true)
                         (mkSys [PILImage 1 1 [(10, 20, 30)]] ["9"; "out.png"; "0"] [])
                         ["out.png"; "0"] eq_refl))
           eq_refl "out.png" ["0"] 1%nat 1%nat [(10, 20, 30)]); reflexivity.
Defined.

Lemma modified_flag_discipline_witness :
  exists ses' s',
    iteration (mkSession 0%nat false)
              (mkSys [PILImage 1 1 [(10, 20, 30)]] ["3"; "1.0"; "0"] [])
    = (inr (Some ses'), s') /\
    modified ses' = true /\
    current ses' <> 0%nat /\
    mem s' !! current ses' = Some (PILImage 1 1 [(10, 20, 30)]).
Proof.
  apply (proj2 (modified_flag_discipline
                  (mkSession 0%nat false)
                  (mkSys [PILImage 1 1 [(10, 20, 30)]] ["3"; "1.0"; "0"] [])
                  "3" ["1.0"; "0"] eq_refl)
           "1.0" ["0"] (Qmake 10 10) 1%nat 1%nat [(10, 20, 30)]).
  - left. reflexivity.
  - reflexivity.
  - reflexivity.
  - reflexivity.
  - reflexivity.
Defined.

Lemma confirmation_repeats_while_pending_witness :
  iteration (mkSession 0%nat true) (mkSys [PILImage 1 1 [(10, 20, 30)]] ["8"; "0"] [])
  = (inr (Some (mkSession 0%nat true)),
     mkSys [PILImage 1 1 [(10, 20, 30)]] ["0"]
           [Print menu; Prompt "Choose: ";
            Show 1 1 [(10, 20, 30)]; Print "Applied."; Show 1 1 [(10, 20, 30)]]).
Proof.
  apply (proj1 (confirmation_repeats_while_pending
                  (mkSession 0%nat true)
                  (mkSys [PILImage 1 1 [(10, 20, 30)]] ["8"; "0"] [])
                  "8" ["0"] 1%nat 1%nat [(10, 20, 30)] eq_refl eq_refl eq_refl)
           eq_refl).
Defined.

(** A whole session: load, brighten, show, mistype, leave.  The
    confirmation comes after the change, after the show and after the
    mistyped choice. *)
Example session_with_pending_change :
  out (snd (run main ["in.png"; "3"; "0.5"; "8"; "x"; "0"]))
  = [Prompt "Path: ";
     Print menu; Prompt "Choose: "; Prompt "Brightness [1]: ";
     Print "Applied."; Show 2 1 [(5, 10, 15); (100, 50, 25)];
     Print menu; Prompt "Choose: ";
     Show 2 1 [(5, 10, 15); (100, 50, 25)];
     Print "Applied."; Show 2 1 [(5, 10, 15); (100, 50, 25)];
     Print menu; Prompt "Choose: ";
     Print "Invalid.";
     Print "Applied."; Show 2 1 [(5, 10, 15); (100, 50, 25)];
     Print menu; Prompt "Choose: "].
Proof. vm_compute. reflexivity. Qed.

(** * Further properties of the program *)

(** ** Invariants of a session *)

Lemma grows_refl ok s : grows ok s s.
Proof.
  split; [reflexivity|]. split; [reflexivity|].
  exists []. rewrite app_nil_r. auto.
Qed.

Lemma grows_trans ok s1 s2 s3 : grows ok s1 s2 -> grows ok s2 s3 -> grows ok s1 s3.
Proof.
  intros (Hm1 & Hi1 & evs1 & Ho1 & Hok1) (Hm2 & Hi2 & evs2 & Ho2 & Hok2).
  split; [etransitivity; eassumption|]. split; [etransitivity; eassumption|].
  exists (evs1 ++ evs2). rewrite Ho2, Ho1, <- app_assoc.
  split; [reflexivity | apply Forall_app; auto].
Qed.

Lemma grows_pushes ok s os : grows ok s (pushes s os).
Proof.
  split; [apply prefix_app_r; reflexivity|]. split; [reflexivity|].
  exists []. simpl. rewrite app_nil_r. auto.
Qed.

Lemma grows_say ok s evs : Forall ok evs -> grows ok s (say s evs).
Proof.
  intros H. split; [reflexivity|]. split; [reflexivity|]. exists evs. auto.
Qed.

Lemma grows_read ok s line rest evs :
  stdin s = line :: rest -> Forall ok evs ->
  grows ok s (mkSys (mem s) rest (out s ++ evs)).
Proof.
  intros Hin H. split; [reflexivity|].
  split; [simpl; rewrite Hin; apply suffix_cons_r; reflexivity|].
  exists evs. auto.
Qed.

Lemma valid_grows ok w h l s s' : grows ok s s' -> valid w h l s -> valid w h l s'.
Proof.
  intros (Hm & _) (px & Hl). exists px. eapply prefix_lookup_Some; eassumption.
Qed.

Lemma hoare_ret {A : Type} ok (P : Sys -> Prop) (Q : A -> Sys -> Prop) (a : A) :
  (forall s, P s -> Q a s) -> hoare ok P (mret a) Q.
Proof.
  intros H s r s' HP Hrun. unfold mret, M_ret in Hrun. injection Hrun as <- <-.
  split; [apply grows_refl|]. intros b E. injection E as <-. auto.
Qed.

Lemma hoare_bind {A B : Type} ok P (m : M A) (f : A -> M B) Q Q' :
  hoare ok P m Q -> (forall a, hoare ok (Q a) (f a) Q') -> hoare ok P (m ≫= f) Q'.
Proof.
  intros Hm Hf s r s' HP. unfold mbind, M_bind.
  destruct (m s) as [[e|a] s1] eqn:E; intros H.
  - injection H as <- <-. destruct (Hm _ _ _ HP E) as [Hg _].
    split; [exact Hg | discriminate].
  - destruct (Hm _ _ _ HP E) as [Hg HQ].
    destruct (Hf a _ _ _ (HQ a eq_refl) H) as [Hg' HQ'].
    split; [eapply grows_trans; eassumption | exact HQ'].
Qed.

Lemma hoare_weaken {A : Type} ok (P P' : Sys -> Prop) (m : M A) (Q Q' : A -> Sys -> Prop) :
  hoare ok P' m Q' -> (forall s, P s -> P' s) -> (forall a s, Q' a s -> Q a s) ->
  hoare ok P m Q.
Proof.
  intros H HP HQ s r s' Hs Hrun. destruct (H _ _ _ (HP _ Hs) Hrun) as [Hg Hq].
  split; [exact Hg|]. intros a E. apply HQ, Hq, E.
Qed.

Section SessionInvariant.
Context {lib : ImagingLib} {rt : Runtime}.
Variables (ok : event -> Prop) (w h : nat).

Lemma hoare_print c msg :
  ok (Print msg) -> hoare ok (valid w h c) (print msg) (fun _ => valid w h c).
Proof.
  intros Hok s r s' HP Hrun. rewrite print_run in Hrun. injection Hrun as <- <-.
  assert (Hg : grows ok s (say s [Print msg])) by (apply grows_say; auto).
  split; [exact Hg|]. intros _ _. eapply valid_grows; eassumption.
Qed.

Lemma hoare_input c p :
  ok (Prompt p) -> hoare ok (valid w h c) (input p) (fun _ => valid w h c).
Proof.
  intros Hok s r s' HP Hrun. destruct (stdin s) as [|line rest] eqn:Hin.
  - rewrite (input_eof _ _ Hin) in Hrun. injection Hrun as <- <-.
    split; [apply grows_say; auto | discriminate].
  - rewrite (input_run _ _ _ _ Hin) in Hrun. injection Hrun as <- <-.
    assert (Hg : grows ok s (mkSys (mem s) rest (out s ++ [Prompt p])))
      by (apply (grows_read ok s line); auto).
    split; [exact Hg|]. intros _ _. eapply valid_grows; eassumption.
Qed.

Lemma hoare_float c line :
  hoare ok (valid w h c) (float line) (fun _ => valid w h c).
Proof.
  intros s r s' HP Hrun. unfold float in Hrun.
  destruct (float_of_string line); injection Hrun as <- <-;
    (split; [apply grows_refl|]); [discriminate | intros _ _; exact HP].
Qed.

Lemma hoare_show c :
  (forall px, ok (Show w h px)) ->
  hoare ok (valid w h c) (Image_show c) (fun _ => valid w h c).
Proof.
  intros Hok s r s' [px Hl] Hrun.
  rewrite (Image_show_run _ _ _ _ _ Hl) in Hrun. injection Hrun as <- <-.
  assert (Hg : grows ok s (say s [Show w h px])) by (apply grows_say; auto).
  split; [exact Hg|]. intros _ _. eapply valid_grows; [exact Hg|]. exists px. exact Hl.
Qed.

Lemma hoare_adjust a c :
  hoare ok (valid w h c) (adjust a c) (fun l => valid w h l).
Proof.
  intros s r s' [px Hl] Hrun.
  assert (Hcase : accepted a \/ exists gamma, a = Gamma gamma /\ (gamma < 0)%Q).
  { destruct a; simpl; auto. destruct (Qlt_le_dec gamma 0); eauto. }
  destruct Hcase as [Hacc | (gamma & -> & Hneg)].
  - rewrite (adjust_run _ _ _ _ _ _ Hl Hacc) in Hrun. injection Hrun as <- <-.
    split; [apply grows_pushes|]. intros l E. injection E as <-.
    eexists. apply lookup_pushes_last.
  - rewrite (adjust_refused _ _ _ _ _ _ Hl Hneg) in Hrun. injection Hrun as <- <-.
    split; [apply grows_pushes | discriminate].
Qed.

Lemma hoare_save_image c path quality :
  ok (Print ("Saved: " +:+ path)) ->
  (forall opts px, ok (Save path opts w h px)) ->
  hoare ok (valid w h c) (save_image c path quality) (fun _ => valid w h c).
Proof.
  intros Hprint Hsave s r s' [px Hl] Hrun.
  unfold save_image, Image_save in Hrun.
  destruct (save_error path (save_options path quality)) as [err|] eqn:Herr.
  - erewrite bind_raise in Hrun.
    2:{ rewrite (bind_run _ _ _ _ _ (deref_run _ _ _ Hl)). cbv beta iota.
        reflexivity. }
    injection Hrun as <- <-. split; [apply grows_refl | discriminate].
  - erewrite bind_run in Hrun.
    2:{ rewrite (bind_run _ _ _ _ _ (deref_run _ _ _ Hl)). cbv beta iota.
        reflexivity. }
    rewrite print_run in Hrun. injection Hrun as <- <-.
    assert (Hg : grows ok s (say (say s [Save path (save_options path quality) w h px])
                                 [Print ("Saved: " +:+ path)])).
    { rewrite say_say. apply grows_say. repeat constructor; auto. }
    split; [exact Hg|]. intros _ _. eapply valid_grows; [exact Hg|]. exists px. exact Hl.
Qed.

Lemma hoare_confirm ses :
  (forall msg, ok (Print msg)) -> (forall px, ok (Show w h px)) ->
  hoare ok (valid w h (current ses)) (confirm ses) (fun _ => valid w h (current ses)).
Proof.
  intros Hprint Hshow. unfold confirm. destruct (modified ses).
  - eapply hoare_bind; [apply hoare_print; auto|].
    intros ?. apply hoare_show. exact Hshow.
  - apply hoare_ret. auto.
Qed.

Lemma hoare_dispatch choice ses :
  permits ok w h (choice = "9" /\ modified ses = true) ->
  hoare ok (valid w h (current ses)) (dispatch choice ses)
        (fun ses' => valid w h (current ses')).
Proof.
  intros (Hprint & Hprompt & Hshow & Hsave).
  assert (Hnum : forall p (a : Q -> Adjustment),
             hoare ok (valid w h (current ses))
               (s ← input p; g ← float s; cur ← adjust (a g) (current ses);
                mret (mkSession cur true))
               (fun ses' => valid w h (current ses'))).
  { intros p a.
    eapply hoare_bind; [apply hoare_input; auto|]. intros line.
    eapply hoare_bind; [apply hoare_float|]. intros g.
    eapply hoare_bind; [apply hoare_adjust|]. intros cur.
    apply hoare_ret. auto. }
  unfold dispatch.
  destruct (String.eqb choice "1"); [exact (Hnum _ Gamma)|].
  destruct (String.eqb choice "2").
  { eapply hoare_bind; [apply (hoare_adjust HistEq)|]. intros cur.
    apply hoare_ret. auto. }
  destruct (String.eqb choice "3"); [exact (Hnum _ Brightness)|].
  destruct (String.eqb choice "4"); [exact (Hnum _ Contrast)|].
  destruct (String.eqb choice "5"); [exact (Hnum _ Sharpness)|].
  destruct (String.eqb choice "6"); [exact (Hnum _ Saturation)|].
  destruct (String.eqb choice "7"); [exact (Hnum _ Exposure)|].
  destruct (String.eqb choice "8").
  { eapply hoare_bind; [apply hoare_show; auto|]. intros ?. apply hoare_ret. auto. }
  destruct (String.eqb_spec choice "9") as [E9|_].
  { destruct (modified ses) eqn:Hm.
    - eapply hoare_bind; [apply hoare_input; auto|]. intros path.
      eapply hoare_bind; [apply hoare_save_image; auto|]. intros ?.
      apply hoare_ret. auto.
    - eapply hoare_bind; [apply hoare_print; auto|]. intros ?. apply hoare_ret. auto. }
  eapply hoare_bind; [apply hoare_print; auto|]. intros ?. apply hoare_ret. auto.
Qed.

(** One pass from a state where the current image is valid. *)
Lemma iteration_grows ses s choice rest r s' :
  permits ok w h (choice = "9" /\ modified ses = true) ->
  stdin s = choice :: rest ->
  valid w h (current ses) s ->
  iteration ses s = (r, s') ->
  grows ok s s' /\
  stdin s' `suffix_of` rest /\
  (r = inr None -> choice = "0" /\ stdin s' = rest) /\
  (forall ses', r = inr (Some ses') -> valid w h (current ses') s').
Proof.
  intros Hperm Hin Hval Hrun.
  pose proof Hperm as (Hprint & Hprompt & Hshow & _).
  assert (Hg0 : grows ok s (after_choice s rest)).
  { apply (grows_read ok s choice); [exact Hin|]. repeat constructor; auto. }
  rewrite (iteration_read _ _ _ _ Hin) in Hrun.
  destruct (String.eqb_spec choice "0") as [E0|Hne].
  - unfold mret, M_ret in Hrun. injection Hrun as <- <-.
    split; [exact Hg0|]. split; [reflexivity|].
    split; [auto | discriminate].
  - assert (Hh : hoare ok (valid w h (current ses))
                   (ses' ← dispatch choice ses; _ ← confirm ses'; mret (Some ses'))
                   (fun r s' => exists ses', r = Some ses' /\ valid w h (current ses') s')).
    { eapply hoare_bind; [apply hoare_dispatch; exact Hperm|]. intros ses1.
      eapply hoare_bind; [apply hoare_confirm; auto|]. intros ?.
      apply hoare_ret. eauto. }
    destruct (Hh _ _ _ (valid_grows _ _ _ _ _ _ Hg0 Hval) Hrun) as [Hg HQ].
    split; [eapply grows_trans; eassumption|].
    split; [apply Hg|].
    split.
    + intros ->. destruct (HQ None eq_refl) as (? & E & _). discriminate.
    + intros ses' ->. destruct (HQ _ eq_refl) as (? & E & Hv). injection E as <-. exact Hv.
Qed.

(** The loop: the state grows, and a normal end follows the choice 0. *)
Lemma main_loop_grows fuel ses s r s' :
  permits ok w h (In "9" (stdin s)) ->
  valid w h (current ses) s ->
  main_loop fuel ses s = (r, s') ->
  grows ok s s' /\
  (r = inr (Some tt) -> exists pre, stdin s = pre ++ "0" :: stdin s').
Proof.
  revert ses s. induction fuel as [|fuel IH]; intros ses s Hperm Hval Hrun.
  - simpl in Hrun. unfold mret, M_ret in Hrun. injection Hrun as <- <-.
    split; [apply grows_refl | discriminate].
  - simpl in Hrun. unfold mbind, M_bind in Hrun.
    destruct Hperm as (Hprint & Hprompt & Hshow & Hsave).
    destruct (stdin s) as [|choice rest] eqn:Hin.
    { rewrite (iteration_eof _ _ Hin) in Hrun. injection Hrun as <- <-.
      split; [apply grows_say; repeat constructor; auto | discriminate]. }
    assert (Hperm1 : permits ok w h (choice = "9" /\ modified ses = true)).
    { repeat split; auto. intros [-> _]. apply Hsave. left. reflexivity. }
    destruct (iteration ses s) as [[e | [ses1|]] s1] eqn:E;
      destruct (iteration_grows _ _ _ _ _ _ Hperm1 Hin Hval E) as (Hg & Hsuf & Hnone & Hsome).
    + injection Hrun as <- <-. split; [exact Hg | discriminate].
    + assert (Hperm2 : permits ok w h (In "9" (stdin s1))).
      { repeat split; auto. intros H9. apply Hsave. right.
        destruct Hsuf as [k ->]. apply in_or_app. right. exact H9. }
      destruct (IH _ _ Hperm2 (Hsome _ eq_refl) Hrun) as [Hg' Hexit].
      split; [eapply grows_trans; eassumption|].
      intros Er. destruct (Hexit Er) as [pre Hpre].
      destruct Hsuf as [k ->]. exists (choice :: k ++ pre).
      rewrite Hpre. simpl. rewrite <- app_assoc. reflexivity.
    + unfold mret, M_ret in Hrun. injection Hrun as <- <-.
      split; [exact Hg|]. intros ?.
      destruct (Hnone eq_refl) as [-> ->]. exists []. reflexivity.
Qed.

End SessionInvariant.

Lemma permits_size w h cond : permits (event_size w h) w h cond.
Proof. unfold permits. simpl. auto. Qed.

Lemma permits_save_only_if w h cond : permits (save_only_if cond) w h cond.
Proof.
  split; [intros msg []|]. split; [intros p []|]. split; [intros px []|].
  intros Hc path opts px _. exact Hc.
Qed.

Lemma permits_no_save w h (cond : Prop) : ~ cond -> permits (fun e => ~ is_save e) w h cond.
Proof.
  intros Hn. split; [intros msg []|]. split; [intros p []|]. split; [intros px []|].
  intros Hc. contradiction.
Qed.

Lemma permits_anything w h cond : permits (fun _ => True) w h cond.
Proof. unfold permits. auto. Qed.

Section SessionProperties.
Context {lib : ImagingLib} {rt : Runtime}.

(** [main] once the image is loaded: the loop runs on the copy. *)
Lemma main_loaded s path lines w h px :
  stdin s = path :: lines ->
  open_rgb path = inr (w, h, px) ->
  main s
  = main_loop (S (length lines)) (mkSession (S (length (mem s))) false)
      (mkSys (mem s ++ [PILImage w h px; PILImage w h px]) lines
             (out s ++ [Prompt "Path: "])).
Proof.
  intros Hin Hopen. unfold main.
  erewrite bind_run by (apply input_run; exact Hin).
  erewrite bind_run by (apply load_success; exact Hopen).
  cbv beta iota.
  erewrite bind_run by (apply Image_copy_run; apply lookup_push_new).
  rewrite (bind_run _ _ _ _ _ (enough_fuel_run _)).
  unfold push. cbn [mem stdin out]. rewrite <- app_assoc, length_app.
  cbn [app length]. replace (length (mem s) + 1)%nat with (S (length (mem s))) by lia.
  reflexivity.
Qed.

Lemma main_not_loaded s path lines e :
  stdin s = path :: lines ->
  open_rgb path = inl e ->
  main s
  = (inr (Some tt),
     mkSys (mem s) lines
           (out s ++ [Prompt "Path: "; Print ("Error loading image: " +:+ str_exn e)])).
Proof.
  intros Hin Hopen. unfold main.
  erewrite bind_run by (apply input_run; exact Hin).
  erewrite bind_run by (apply load_raises; exact Hopen).
  unfold say. cbn [mem stdin out]. rewrite <- app_assoc. reflexivity.
Qed.

Lemma main_loaded_grows ok s path lines w h px r s' :
  permits ok w h (In "9" lines) ->
  stdin s = path :: lines ->
  open_rgb path = inr (w, h, px) ->
  main s = (r, s') ->
  grows ok s s' /\
  mem s' !! length (mem s) = Some (PILImage w h px) /\
  (r = inr (Some tt) -> exists pre, lines = pre ++ "0" :: stdin s').
Proof.
  intros Hperm Hin Hopen Hrun.
  rewrite (main_loaded _ _ _ _ _ _ Hin Hopen) in Hrun.
  set (s1 := mkSys (mem s ++ [PILImage w h px; PILImage w h px]) lines
                   (out s ++ [Prompt "Path: "])) in Hrun.
  assert (Hg1 : grows ok s s1).
  { split; [apply prefix_app_r; reflexivity|].
    split; [simpl; rewrite Hin; apply suffix_cons_r; reflexivity|].
    exists [Prompt "Path: "]. split; [reflexivity|].
    repeat constructor. apply Hperm. }
  assert (Hv : valid w h (S (length (mem s))) s1).
  { exists px. simpl. rewrite lookup_app_r by lia.
    replace (S (length (mem s)) - length (mem s))%nat with 1%nat by lia. reflexivity. }
  destruct (main_loop_grows ok w h _ (mkSession (S (length (mem s))) false) s1 _ _
              Hperm Hv Hrun) as [Hg Hexit].
  split; [eapply grows_trans; eassumption|].
  split; [|exact Hexit].
  destruct Hg as (Hm & _). eapply prefix_lookup_Some; [|exact Hm].
  simpl. rewrite lookup_app_r by lia.
  replace (length (mem s) - length (mem s))%nat with 0%nat by lia. reflexivity.
Qed.

(** X1.  Whatever is typed and however the session ends, every object the
    heap held stays as it was, the image that was loaded is still there
    unchanged, and every image shown or saved has the width and height of
    the loaded one. *)
Theorem session_keeps_image_size s path lines w h px r s' :
  stdin s = path :: lines ->
  open_rgb path = inr (w, h, px) ->
  main s = (r, s') ->
  mem s `prefix_of` mem s' /\
  mem s' !! length (mem s) = Some (PILImage w h px) /\
  exists evs, out s' = out s ++ evs /\ Forall (event_size w h) evs.
Proof.
  intros Hin Hopen Hrun.
  destruct (main_loaded_grows _ _ _ _ _ _ _ _ _ (permits_size w h _) Hin Hopen Hrun)
    as ((Hm & _ & Hout) & Himg & _).
  auto.
Qed.

(** X2.  [main] returns only in two ways: the image could not be loaded, or
    the last line it read was the choice 0.  Any other session ends with an
    exception. *)
Theorem main_returns_only_on_exit s x s' :
  main s = (inr x, s') ->
  x = Some tt /\
  exists path lines,
    stdin s = path :: lines /\
    (((exists e, open_rgb path = inl e) /\ stdin s' = lines) \/
     exists pre, lines = pre ++ "0" :: stdin s').
Proof.
  intros Hrun.
  assert (Hx : x = Some tt).
  { destruct x as [[]|]; [reflexivity|].
    exfalso. eapply main_within_bound; [exact Hrun | reflexivity]. }
  subst x. split; [reflexivity|].
  destruct (stdin s) as [|path lines] eqn:Hin.
  - unfold main in Hrun.
    erewrite bind_raise in Hrun by (apply input_eof; exact Hin). discriminate.
  - exists path, lines. split; [reflexivity|].
    destruct (open_rgb path) as [e | [[w h] px]] eqn:Hopen.
    + left. split; [eauto|].
      rewrite (main_not_loaded _ _ _ _ Hin Hopen) in Hrun. injection Hrun as <-. reflexivity.
    + right.
      destruct (main_loaded_grows _ _ _ _ _ _ _ _ _ (permits_anything w h _) Hin Hopen Hrun)
        as (_ & _ & Hexit).
      apply Hexit. reflexivity.
Qed.

(** X3.  In one pass a file is written only if the choice was 9 and the
    flag was set. *)
Theorem pass_saves_only_when_asked ses s choice rest w h px r s' :
  stdin s = choice :: rest ->
  mem s !! current ses = Some (PILImage w h px) ->
  iteration ses s = (r, s') ->
  exists evs,
    out s' = out s ++ evs /\
    (Exists is_save evs -> choice = "9" /\ modified ses = true).
Proof.
  intros Hin Hcur Hrun.
  assert (Hv : valid w h (current ses) s) by (exists px; exact Hcur).
  destruct (iteration_grows _ w h _ _ _ _ _ _ (permits_save_only_if w h _) Hin Hv Hrun)
    as ((_ & _ & evs & Hout & Hok) & _).
  exists evs. split; [exact Hout|].
  intros Hex. apply Exists_exists in Hex as (e & He & Hs).
  rewrite Forall_forall in Hok. exact (Hok e He Hs).
Qed.

(** X4.  A session in which the line 9 is never typed after the path writes
    no file, however it ends. *)
Theorem session_without_9_writes_nothing s path lines r s' :
  stdin s = path :: lines ->
  ~ In "9" lines ->
  main s = (r, s') ->
  exists evs, out s' = out s ++ evs /\ Forall (fun e => ~ is_save e) evs.
Proof.
  intros Hin H9 Hrun.
  destruct (open_rgb path) as [e | [[w h] px]] eqn:Hopen.
  - rewrite (main_not_loaded _ _ _ _ Hin Hopen) in Hrun. injection Hrun as <- <-.
    eexists. split; [reflexivity|]. repeat constructor; auto.
  - destruct (main_loaded_grows _ _ _ _ _ _ _ _ _ (permits_no_save w h _ H9) Hin Hopen Hrun)
      as ((_ & _ & Hout) & _).
    exact Hout.
Qed.

End SessionProperties.

Section PassProperties.
Context {lib : ImagingLib} {rt : Runtime}.

Lemma float_raises line e s : float_of_string line = inl e -> float line s = (inl e, s).
Proof. intros H. unfold float. rewrite H. reflexivity. Qed.

Lemma parameter_prompt_cases choice prompt :
  parameter_prompt choice = Some prompt ->
  (choice = "1" /\ prompt = "Gamma [1]: ") \/
  (choice = "3" /\ prompt = "Brightness [1]: ") \/
  (choice = "4" /\ prompt = "Contrast [1]: ") \/
  (choice = "5" /\ prompt = "Sharpness [1]: ") \/
  (choice = "6" /\ prompt = "Saturation [1]: ") \/
  (choice = "7" /\ prompt = "Exposure [1]: ").
Proof.
  unfold parameter_prompt.
  repeat match goal with
         | |- context [String.eqb choice ?k] => destruct (String.eqb_spec choice k)
         end;
    intros H; try discriminate; injection H as <-; tauto.
Qed.

Lemma bind_input_run {B C : Type} p (f : string -> M B) (F : B -> M C) s line rest :
  stdin s = line :: rest ->
  ((input p ≫= f) ≫= F) s = (f line ≫= F) (mkSys (mem s) rest (out s ++ [Prompt p])).
Proof.
  intros Hin. unfold mbind at 1 3, M_bind at 1 3.
  unfold mbind at 1, M_bind at 1. rewrite (input_run _ _ _ _ Hin). reflexivity.
Qed.

(** A pass with one of the choices that ask for a number, up to the point
    where the number is read. *)
Lemma iteration_asks ses s choice prompt line rest :
  parameter_prompt choice = Some prompt ->
  stdin s = choice :: line :: rest ->
  exists k : Q -> M Session,
    iteration ses s
    = (ses' ← (g ← float line; k g); _ ← confirm ses'; mret (Some ses'))
        (mkSys (mem s) rest (out s ++ [Print menu; Prompt "Choose: "; Prompt prompt]))
    /\ (choice = "1" ->
        k = fun g => cur ← apply_gamma (current ses) g; mret (mkSession cur true)).
Proof.
  intros Hp Hin. rewrite (iteration_read _ _ _ _ Hin).
  apply parameter_prompt_cases in Hp.
  destruct Hp as [[-> ->] | [[-> ->] | [[-> ->] | [[-> ->] | [[-> ->] | [-> ->] ] ] ] ] ];
    known_choice; eexists; (split; [|try discriminate; intros _; reflexivity]);
    unfold dispatch; known_choice;
    rewrite (bind_input_run _ _ _ (after_choice s (line :: rest)) line rest eq_refl);
    unfold after_choice; cbn [mem stdin out]; rewrite <- app_assoc; cbn [app];
    reflexivity.
Qed.

(** X5.  A line that [float] cannot read, typed where a number is asked
    for, ends the run with the exception of [float]: no adjustment is made,
    the heap is untouched, nothing is confirmed, and the status is 1. *)
Theorem unparsable_number_ends_run ses s choice prompt line rest e :
  parameter_prompt choice = Some prompt ->
  stdin s = choice :: line :: rest ->
  float_of_string line = inl e ->
  iteration ses s
  = (inl e,
     mkSys (mem s) rest
           (out s ++ [Print menu; Prompt "Choose: "; Prompt prompt])) /\
  forall fuel,
    exit_status (fst (main_loop (S fuel) ses s)) = 1.
Proof.
  intros Hp Hin Hfloat.
  assert (E : iteration ses s
              = (inl e, mkSys (mem s) rest
                              (out s ++ [Print menu; Prompt "Choose: "; Prompt prompt]))).
  { destruct (iteration_asks ses s _ _ _ _ Hp Hin) as (k & -> & _).
    erewrite bind_raise; [reflexivity|].
    erewrite bind_raise; [reflexivity|].
    apply float_raises. exact Hfloat. }
  split; [exact E|].
  intros fuel. simpl main_loop. erewrite bind_raise by exact E. reflexivity.
Qed.

(** X6.  A negative gamma, which scikit-image refuses, ends the run with
    that [ValueError]: the current image is as it was, the session gets no
    new image and nothing is confirmed. *)
Theorem negative_gamma_ends_run ses s line rest g w h px :
  stdin s = "1" :: line :: rest ->
  float_of_string line = inr g ->
  (g < 0)%Q ->
  mem s !! current ses = Some (PILImage w h px) ->
  exists s',
    iteration ses s
    = (inl (ValueError "Gamma should be a non-negative real number."), s') /\
    mem s' !! current ses = Some (PILImage w h px) /\
    out s' = out s ++ [Print menu; Prompt "Choose: "; Prompt "Gamma [1]: "].
Proof.
  intros Hin Hfloat Hneg Hcur.
  destruct (iteration_asks ses s "1" _ line rest eq_refl Hin) as (k & -> & Hk).
  rewrite (Hk eq_refl).
  eexists. split.
  - erewrite bind_raise; [reflexivity|].
    erewrite bind_run by (apply float_run; exact Hfloat).
    erewrite bind_raise; [reflexivity|].
    apply (apply_gamma_negative _ _ _ w h px); [exact Hcur | exact Hneg].
  - split; [|reflexivity]. apply lookup_pushes_old. exact Hcur.
Qed.

(** The pass that saves. *)
Lemma iteration_save ses s path rest w h px :
  modified ses = true ->
  stdin s = "9" :: path :: rest ->
  mem s !! current ses = Some (PILImage w h px) ->
  iteration ses s
  = match save_error path (save_options path 100) with
    | None =>
        (inr (Some (mkSession (current ses) false)),
         mkSys (mem s) rest
               (out s ++ [Print menu; Prompt "Choose: "; Prompt "Save as: ";
                          Save path (save_options path 100) w h px;
                          Print ("Saved: " +:+ path)]))
    | Some err =>
        (inl err,
         mkSys (mem s) rest
               (out s ++ [Print menu; Prompt "Choose: "; Prompt "Save as: "]))
    end.
Proof.
  intros Hm Hin Hcur. rewrite (iteration_read _ _ _ _ Hin). known_choice.
  unfold dispatch. known_choice. rewrite Hm.
  destruct (save_error path (save_options path 100)) as [err|] eqn:Herr.
  - erewrite bind_raise; [reflexivity|].
    erewrite bind_run by (apply input_run; reflexivity).
    erewrite bind_raise.
    2:{ unfold save_image, Image_save.
        erewrite bind_raise; [reflexivity|].
        erewrite bind_run by (apply deref_run; exact Hcur).
        cbv beta iota. unfold default_quality. rewrite Herr. reflexivity. }
    unfold after_choice. cbn [mem stdin out]. rewrite <- app_assoc. reflexivity.
  - erewrite bind_run.
    2:{ erewrite bind_run by (apply input_run; reflexivity).
        erewrite bind_run.
        2:{ unfold save_image, Image_save.
            erewrite bind_run.
            2:{ erewrite bind_run by (apply deref_run; exact Hcur).
                cbv beta iota. unfold default_quality. rewrite Herr. reflexivity. }
            apply print_run. }
        reflexivity. }
    erewrite bind_run by (apply confirm_clean; reflexivity).
    unfold mret, M_ret, say, emit, after_choice. cbn [mem stdin out].
    rewrite <- !app_assoc. reflexivity.
Qed.

(** The pass that finds nothing to save. *)
Lemma iteration_nothing_to_save ses s rest :
  modified ses = false ->
  stdin s = "9" :: rest ->
  iteration ses s
  = (inr (Some ses), say (after_choice s rest) [Print "Nothing to save."]).
Proof.
  intros Hm Hin. rewrite (iteration_read _ _ _ _ Hin). known_choice.
  erewrite bind_run.
  2:{ unfold dispatch. known_choice. rewrite Hm.
      rewrite (bind_run _ _ _ _ _ (print_run _ _)). reflexivity. }
  rewrite (bind_run _ _ _ _ _ (confirm_clean _ _ Hm)). reflexivity.
Qed.

(** X7.  When [Image.save] raises, the run ends with its exception right
    after the path was read: no file is written and ["Saved: ..."] is not
    printed. *)
Theorem failed_save_ends_run ses s path rest w h px err :
  modified ses = true ->
  stdin s = "9" :: path :: rest ->
  mem s !! current ses = Some (PILImage w h px) ->
  save_error path (save_options path 100) = Some err ->
  iteration ses s
  = (inl err,
     mkSys (mem s) rest
           (out s ++ [Print menu; Prompt "Choose: "; Prompt "Save as: "])).
Proof.
  intros Hm Hin Hcur Herr.
  rewrite (iteration_save _ _ _ _ _ _ _ Hm Hin Hcur). rewrite Herr. reflexivity.
Qed.

(** X8.  Saving clears the flag for the passes that follow: of two choices
    9 in a row the first writes the file and the second only prints the
    notice, so one file is written. *)
Theorem second_save_finds_nothing ses s path rest w h px :
  modified ses = true ->
  stdin s = "9" :: path :: "9" :: rest ->
  mem s !! current ses = Some (PILImage w h px) ->
  save_error path (save_options path 100) = None ->
  exists ses1 s1,
    iteration ses s = (inr (Some ses1), s1) /\
    iteration ses1 s1
    = (inr (Some ses1),
       mkSys (mem s) rest
             (out s ++ [Print menu; Prompt "Choose: "; Prompt "Save as: ";
                        Save path (save_options path 100) w h px;
                        Print ("Saved: " +:+ path);
                        Print menu; Prompt "Choose: "; Print "Nothing to save."])).
Proof.
  intros Hm Hin Hcur Hok.
  eexists. eexists. split.
  - rewrite (iteration_save _ _ _ _ _ _ _ Hm Hin Hcur). rewrite Hok. reflexivity.
  - rewrite (iteration_nothing_to_save _ _ rest) by reflexivity.
    unfold say, after_choice. cbn [mem stdin out].
    rewrite <- !app_assoc. reflexivity.
Qed.

(** X9.  A path without any dot is taken whole for its extension: saving
    under a bare name gets the options of the path [stem.name], for any
    stem. *)
Theorem bare_name_is_its_own_extension name stem quality :
  has_char "." name = false ->
  save_options name quality = save_options (stem +:+ "." +:+ name) quality.
Proof.
  intros H. unfold save_options.
  rewrite (extension_of_path stem name H).
  rewrite (extension_without_dot name H). reflexivity.
Qed.

End PassProperties.

(** ** Tone curves and degenerate factors *)

Lemma rint_mono x y : (x <= y)%R -> rint x <= rint y.
Proof.
  intros Hxy.
  pose proof (Zfloor_bound x) as [Hx1 Hx2].
  pose proof (Zfloor_bound y) as [Hy1 Hy2].
  pose proof (Zfloor_le x y Hxy) as Hf.
  destruct (Z.eq_dec (Zfloor x) (Zfloor y)) as [E|Hne].
  - unfold rint. rewrite <- E.
    repeat (destruct (Rlt_dec _ _)); try lra; try lia;
      destruct (Z.even (Zfloor x)); lia.
  - assert (Hlt : Zfloor x + 1 <= Zfloor y) by lia.
    assert (Hrx : rint x <= Zfloor x + 1).
    { unfold rint. repeat destruct (Rlt_dec _ _); try lia.
      destruct (Z.even _); lia. }
    assert (Hry : Zfloor y <= rint y).
    { unfold rint. repeat destruct (Rlt_dec _ _); try lia.
      destruct (Z.even _); lia. }
    lia.
Qed.

Lemma img_as_ubyte_val_mono x y :
  (0 <= x)%R -> (x <= y)%R -> (y <= 1)%R ->
  img_as_ubyte_val x <= img_as_ubyte_val y.
Proof.
  intros H0 Hxy H1.
  rewrite (proj1 (img_as_ubyte_val_unit x ltac:(lra))).
  rewrite (proj1 (img_as_ubyte_val_unit y ltac:(lra))).
  apply rint_mono. lra.
Qed.

Lemma img_as_ubyte_val_0 : img_as_ubyte_val 0 = 0.
Proof.
  rewrite (proj1 (img_as_ubyte_val_unit 0 ltac:(lra))).
  replace (0 * 255)%R with (IZR 0) by lra. apply rint_IZR.
Qed.

Lemma img_as_ubyte_val_1 : img_as_ubyte_val 1 = 255.
Proof.
  rewrite (proj1 (img_as_ubyte_val_unit 1 ltac:(lra))).
  replace (1 * 255)%R with (IZR 255) by lra. apply rint_IZR.
Qed.

Lemma np_clip_val_bottom x : (x <= 0)%R -> np_clip_val 0 1 x = 0%R.
Proof.
  intros H. unfold np_clip_val, Rmin, Rmax.
  destruct (Rle_dec x 0); destruct (Rle_dec _ 1); lra.
Qed.

Lemma img_as_float_val_unit v : u8 v -> (0 <= img_as_float_val v <= 1)%R.
Proof.
  intros [H0 H255]. unfold img_as_float_val. apply IZR_le in H0, H255. lra.
Qed.

Lemma img_as_float_val_mono u v : u <= v -> (img_as_float_val u <= img_as_float_val v)%R.
Proof. intros H. unfold img_as_float_val. apply IZR_le in H. lra. Qed.

Lemma Rpower_pos x g : (0 < Rpower x g)%R.
Proof. unfold Rpower. apply exp_pos. Qed.

Lemma np_power_mono g x y :
  (0 <= g)%R -> (0 <= x)%R -> (x <= y)%R -> (np_power x g <= np_power y g)%R.
Proof.
  intros Hg Hx Hxy. unfold np_power.
  destruct (Req_EM_T x 0) as [Ex|Nx]; destruct (Req_EM_T y 0) as [Ey|Ny]; try lra.
  - destruct (Req_EM_T g 0) as [->|Ng].
    + rewrite Rpower_O by lra. lra.
    + pose proof (Rpower_pos y g). lra.
  - apply Rle_Rpower_l; lra.
Qed.

Lemma np_power_one g : np_power 1 g = 1%R.
Proof.
  unfold np_power. destruct (Req_EM_T 1 0); [lra|].
  unfold Rpower. rewrite ln_1, Rmult_0_r. apply exp_0.
Qed.

Lemma np_power_zero_exponent x : np_power x 0 = 1%R.
Proof.
  unfold np_power. destruct (Req_EM_T x 0) as [E|N].
  - destruct (Req_EM_T 0 0); [reflexivity | lra].
  - unfold Rpower. rewrite Rmult_0_l. apply exp_0.
Qed.

Lemma ln_1p_nonneg x : (0 <= x)%R -> (0 <= ln (1 + x))%R.
Proof. intros H. rewrite <- ln_1. apply ln_le; lra. Qed.

Lemma blend_pixels_zero alpha px1 px2 : (alpha == 0)%Q -> blend_pixels alpha px1 px2 = px1.
Proof.
  intros H. unfold blend_pixels. apply Qeq_bool_iff in H. rewrite H. reflexivity.
Qed.

Lemma map_pmap_ext_u8 (f g : Z -> Z) (px : list pixel) :
  (forall v, u8 v -> f v = g v) -> Forall u8_pixel px ->
  map (pmap f) px = map (pmap g) px.
Proof.
  intros H. induction 1 as [|[[r gr] b] px (Hr & Hg & Hb) _ IH]; [reflexivity|].
  cbn [map pmap]. rewrite IH, !H by assumption. reflexivity.
Qed.

Section CurveProperties.
Context {lib : ImagingLib} {rt : Runtime}.

Lemma apply_gamma_pixels s image gamma w h px :
  mem s !! image = Some (PILImage w h px) ->
  (0 <= gamma)%Q ->
  exists l s',
    apply_gamma image gamma s = (inr l, s') /\
    mem s' !! l
    = Some (PILImage w h
              (map (pmap (fun v =>
                            img_as_ubyte_val
                              (np_clip_val 0 1
                                 (adjust_gamma_val (Q2R gamma) (img_as_float_val v)))))
                   px)).
Proof.
  intros Himg Hg. eexists. eexists.
  split; [apply apply_gamma_run; eassumption|].
  replace (5 + length (mem s))%nat with (length (mem s) + 5)%nat by lia.
  etransitivity; [apply (lookup_pushes_last s [_; _; _; _; _])|].
  do 2 f_equal. unfold to_ubyte, clipped, gamma_floats, normalized.
  rewrite !map_map. apply map_ext. intros [[r g] b]. reflexivity.
Qed.

Lemma adjust_exposure_pixels s image gain w h px :
  mem s !! image = Some (PILImage w h px) ->
  exists l s',
    adjust_exposure image gain s = (inr l, s') /\
    mem s' !! l
    = Some (PILImage w h
              (map (pmap (fun v =>
                            img_as_ubyte_val
                              (np_clip_val 0 1
                                 (adjust_log_val (Q2R gain) (img_as_float_val v)))))
                   px)).
Proof.
  intros Himg. eexists. eexists.
  split; [apply adjust_exposure_run; eassumption|].
  replace (5 + length (mem s))%nat with (length (mem s) + 5)%nat by lia.
  etransitivity; [apply (lookup_pushes_last s [_; _; _; _; _])|].
  do 2 f_equal. unfold to_ubyte, clipped, log_floats, normalized.
  rewrite !map_map. apply map_ext. intros [[r g] b]. reflexivity.
Qed.

(** X10.  Gamma correction with a positive gamma sends every channel value
    through one curve on 0..255 that never decreases and keeps 0 at 0 and
    255 at 255: the order of the channel values is kept, black stays black
    and white stays white. *)
Theorem gamma_curve_is_monotone s image gamma w h px :
  mem s !! image = Some (PILImage w h px) ->
  (0 < gamma)%Q ->
  exists (curve : Z -> Z) l s',
    apply_gamma image gamma s = (inr l, s') /\
    mem s' !! l = Some (PILImage w h (map (pmap curve) px)) /\
    (forall u v, 0 <= u -> u <= v -> v <= 255 -> curve u <= curve v) /\
    curve 0 = 0 /\ curve 255 = 255.
Proof.
  intros Himg Hg.
  assert (Hg0 : (0 <= gamma)%Q) by Lqa.lra.
  assert (HgR : (0 < Q2R gamma)%R).
  { rewrite <- RMicromega.Q2R_0. apply Qlt_Rlt. exact Hg. }
  destruct (apply_gamma_pixels s image gamma w h px Himg Hg0) as (l & s' & Hrun & Hl).
  eexists. exists l, s'. split; [exact Hrun|]. split; [exact Hl|].
  cbv beta. split; [|split].
  - intros u v H0 Huv H255.
    pose proof (img_as_float_val_unit u ltac:(unfold u8; lia)) as Hu.
    pose proof (img_as_float_val_mono u v Huv) as Hm.
    unfold adjust_gamma_val.
    apply img_as_ubyte_val_mono;
      [apply np_clip_val_unit | | apply np_clip_val_unit].
    apply np_clip_val_mono. apply np_power_mono; lra.
  - unfold adjust_gamma_val, img_as_float_val, np_power.
    replace (0 / 255)%R with 0%R by lra.
    destruct (Req_EM_T 0 0); [|lra]. destruct (Req_EM_T (Q2R gamma) 0); [lra|].
    rewrite np_clip_val_id by lra. apply img_as_ubyte_val_0.
  - unfold adjust_gamma_val, img_as_float_val.
    replace (255 / 255)%R with 1%R by lra.
    rewrite np_power_one, np_clip_val_id by lra. apply img_as_ubyte_val_1.
Qed.

(** X11.  Gamma 0 is accepted and turns every channel of every pixel to
    255, whatever the image. *)
Theorem gamma_zero_is_white s image gamma w h px :
  mem s !! image = Some (PILImage w h px) ->
  (gamma == 0)%Q ->
  exists l s',
    apply_gamma image gamma s = (inr l, s') /\
    mem s' !! l = Some (PILImage w h (map (fun _ => (255, 255, 255)) px)).
Proof.
  intros Himg Hg.
  assert (Hg0 : (0 <= gamma)%Q) by (rewrite Hg; discriminate).
  destruct (apply_gamma_pixels s image gamma w h px Himg Hg0) as (l & s' & Hrun & Hl).
  exists l, s'. split; [exact Hrun|]. rewrite Hl. do 2 f_equal.
  apply map_ext. intros [[r g] b]. unfold pmap, adjust_gamma_val.
  apply Qeq_eqR in Hg. rewrite Hg, RMicromega.Q2R_0.
  rewrite !np_power_zero_exponent, np_clip_val_id by lra.
  rewrite img_as_ubyte_val_1. reflexivity.
Qed.

(** X12.  Exposure with a gain that is not negative sends every channel
    value through one curve on 0..255 that never decreases and keeps 0 at
    0. *)
Theorem exposure_curve_is_monotone s image gain w h px :
  mem s !! image = Some (PILImage w h px) ->
  (0 <= gain)%Q ->
  exists (curve : Z -> Z) l s',
    adjust_exposure image gain s = (inr l, s') /\
    mem s' !! l = Some (PILImage w h (map (pmap curve) px)) /\
    (forall u v, 0 <= u -> u <= v -> v <= 255 -> curve u <= curve v) /\
    curve 0 = 0.
Proof.
  intros Himg Hg.
  assert (HgR : (0 <= Q2R gain)%R).
  { rewrite <- RMicromega.Q2R_0. apply Qle_Rle. exact Hg. }
  destruct (adjust_exposure_pixels s image gain w h px Himg) as (l & s' & Hrun & Hl).
  eexists. exists l, s'. split; [exact Hrun|]. split; [exact Hl|].
  cbv beta. pose proof ln_2_pos as H2. split.
  - intros u v H0 Huv H255.
    pose proof (img_as_float_val_unit u ltac:(unfold u8; lia)) as Hu.
    pose proof (img_as_float_val_mono u v Huv) as Hm.
    apply img_as_ubyte_val_mono;
      [apply np_clip_val_unit | | apply np_clip_val_unit].
    apply np_clip_val_mono. unfold adjust_log_val, np_log2.
    apply Rmult_le_compat_r; [exact HgR|].
    apply Rmult_le_compat_r; [apply Rlt_le, Rinv_0_lt_compat; exact H2|].
    apply ln_le; lra.
  - unfold adjust_log_val, np_log2, img_as_float_val.
    replace (1 + 0 / 255)%R with 1%R by lra. rewrite ln_1.
    replace (0 / ln 2 * Q2R gain)%R with 0%R by (field; lra).
    rewrite np_clip_val_id by lra. apply img_as_ubyte_val_0.
Qed.

(** X13.  Exposure with a gain of 0 or below turns an 8-bit image black. *)
Theorem exposure_nonpositive_gain_is_black s image gain w h px :
  mem s !! image = Some (PILImage w h px) ->
  Forall u8_pixel px ->
  (gain <= 0)%Q ->
  exists l s',
    adjust_exposure image gain s = (inr l, s') /\
    mem s' !! l = Some (PILImage w h (map (fun _ => (0, 0, 0)) px)).
Proof.
  intros Himg Hpx Hg.
  assert (HgR : (Q2R gain <= 0)%R).
  { rewrite <- RMicromega.Q2R_0. apply Qle_Rle. exact Hg. }
  destruct (adjust_exposure_pixels s image gain w h px Himg) as (l & s' & Hrun & Hl).
  exists l, s'. split; [exact Hrun|]. rewrite Hl. do 2 f_equal.
  rewrite (map_pmap_ext_u8 _ (fun _ => 0) px); [|  | exact Hpx].
  - apply map_ext. intros [[r g] b]. reflexivity.
  - intros v Hv. pose proof (img_as_float_val_unit v Hv) as Hx.
    pose proof ln_2_pos as H2.
    pose proof (ln_1p_nonneg (img_as_float_val v) ltac:(lra)) as Hln.
    rewrite np_clip_val_bottom; [apply img_as_ubyte_val_0|].
    unfold adjust_log_val, np_log2.
    assert (Hq : (0 <= ln (1 + img_as_float_val v) / ln 2)%R).
    { apply Rmult_le_pos; [exact Hln | apply Rlt_le, Rinv_0_lt_compat; exact H2]. }
    nra.
Qed.

(** X14.  Factor 0 gives the degenerate image of each enhancer: black for
    brightness, one grey level everywhere for contrast, the smoothed image
    for sharpness, and for saturation the grey version, each pixel with its
    three channels equal. *)
Theorem enhance_zero_is_degenerate s image w h px factor :
  mem s !! image = Some (PILImage w h px) ->
  (factor == 0)%Q ->
  (exists l s',
     adjust_brightness image factor s = (inr l, s') /\
     mem s' !! l = Some (PILImage w h (replicate (w * h) (0, 0, 0)))) /\
  (exists l s' v,
     adjust_contrast image factor s = (inr l, s') /\
     mem s' !! l = Some (PILImage w h (replicate (w * h) (v, v, v)))) /\
  (exists l s',
     adjust_sharpness image factor s = (inr l, s') /\
     mem s' !! l = Some (PILImage w h (filter_SMOOTH w h px))) /\
  (exists l s',
     adjust_saturation image factor s = (inr l, s') /\
     mem s' !! l
     = Some (PILImage w h (map (fun p => (convert_L p, convert_L p, convert_L p)) px))).
Proof.
  intros Himg Hz.
  split; [|split; [|split]].
  - eexists. eexists. split; [apply adjust_brightness_run; exact Himg|].
    rewrite (blend_pixels_zero _ _ _ Hz).
    replace (1 + length (mem s))%nat with (length (mem s) + 1)%nat by lia.
    apply (lookup_pushes_last s [_]).
  - eexists. eexists. eexists. split; [apply adjust_contrast_run; exact Himg|].
    rewrite (blend_pixels_zero _ _ _ Hz).
    replace (1 + length (mem s))%nat with (length (mem s) + 1)%nat by lia.
    apply (lookup_pushes_last s [_]).
  - eexists. eexists. split; [apply adjust_sharpness_run; exact Himg|].
    rewrite (blend_pixels_zero _ _ _ Hz).
    replace (1 + length (mem s))%nat with (length (mem s) + 1)%nat by lia.
    apply (lookup_pushes_last s [_]).
  - eexists. eexists. split; [apply adjust_saturation_run; exact Himg|].
    rewrite (blend_pixels_zero _ _ _ Hz).
    replace (1 + length (mem s))%nat with (length (mem s) + 1)%nat by lia.
    apply (lookup_pushes_last s [_]).
Qed.

End CurveProperties.

Lemma map_const_replicate {A B : Type} (c : B) (l : list A) :
  map (fun _ => c) l = replicate (length l) c.
Proof. induction l as [|a l IH]; simpl; [reflexivity | rewrite IH; reflexivity]. Qed.

Lemma zip_with_replicate_l {A B C : Type} (f : A -> B -> C) (a : A) (l : list B) :
  zip_with f (replicate (length l) a) l = map (f a) l.
Proof. induction l as [|b l IH]; simpl; [reflexivity | rewrite IH; reflexivity]. Qed.

(** Blending black with a value: the value scaled, cut at 255. *)
Lemma blend_val_black alpha v :
  (0 <= alpha)%Q -> u8 v ->
  blend_val alpha 0 v = Z.min 255 (Qfloor (alpha * inject_Z v)).
Proof.
  intros Ha Hv.
  destruct (blend_val_saturates alpha 0 v ltac:(unfold u8; lia) Hv) as [-> _].
  assert (Hv0 : (0 <= inject_Z v)%Q) by (destruct Hv; unfold Qle; simpl; lia).
  assert (Ht : (blend_exact alpha 0 v == alpha * inject_Z v)%Q)
    by (unfold blend_exact; ring).
  assert (Hpos : (0 <= blend_exact alpha 0 v)%Q).
  { rewrite Ht. apply Qmult_le_0_compat; assumption. }
  unfold c_trunc. apply Qle_bool_iff in Hpos as Hb. rewrite Hb.
  rewrite (Qfloor_comp _ _ Ht).
  assert (0 <= Qfloor (alpha * inject_Z v)).
  { change 0 with (Qfloor 0). apply Qfloor_resp_le. rewrite <- Ht. exact Hpos. }
  lia.
Qed.

Section MorePassProperties.
Context {lib : ImagingLib} {rt : Runtime}.

(** In the exact arithmetic of the model, brightness with a factor that is
    not negative sends [v] to the integer part of [factor * v], cut at
    255. *)
Lemma adjust_brightness_pixels s image factor w h px :
  mem s !! image = Some (PILImage w h px) ->
  length px = (w * h)%nat ->
  Forall u8_pixel px ->
  (0 <= factor)%Q ->
  exists l s',
    adjust_brightness image factor s = (inr l, s') /\
    mem s' !! l
    = Some (PILImage w h
              (map (pmap (fun v => Z.min 255 (Qfloor (factor * inject_Z v)))) px)).
Proof.
  intros Himg Hlen Hpx Hf. eexists. eexists.
  split; [apply adjust_brightness_run; exact Himg|].
  replace (1 + length (mem s))%nat with (length (mem s) + 1)%nat by lia.
  etransitivity; [apply (lookup_pushes_last s [_])|]. do 2 f_equal.
  unfold degenerate_Brightness. rewrite <- Hlen.
  assert (Hzip : zip_with (blend_pixel factor) (replicate (length px) (grey 0)) px
                 = map (pmap (fun v => Z.min 255 (Qfloor (factor * inject_Z v)))) px).
  { rewrite zip_with_replicate_l. clear Hlen Himg.
    induction Hpx as [|[[r g] b] px (Hr & Hg & Hb) _ IH]; [reflexivity|].
    cbn [map pmap]. rewrite IH. unfold blend_pixel, grey.
    rewrite !blend_val_black by assumption. reflexivity. }
  unfold blend_pixels.
  destruct (Qeq_bool factor 0) eqn:E0.
  - apply Qeq_bool_iff in E0. rewrite <- map_const_replicate.
    symmetry. apply map_ext. intros [[r g] b]. unfold pmap, grey.
    assert (Hz : forall v, Qfloor (factor * inject_Z v) = 0).
    { intros v. assert (Hq : (factor * inject_Z v == 0)%Q) by (rewrite E0; ring).
      rewrite (Qfloor_comp _ _ Hq). reflexivity. }
    rewrite !Hz. reflexivity.
  - destruct (Qeq_bool factor 1) eqn:E1; [|exact Hzip].
    apply Qeq_bool_iff in E1. clear Hzip Hlen Himg.
    induction Hpx as [|[[r g] b] px (Hr & Hg & Hb) _ IH]; [reflexivity|].
    cbn [map pmap]. rewrite <- IH.
    assert (Hz : forall v, u8 v -> Z.min 255 (Qfloor (factor * inject_Z v)) = v).
    { intros v [H0 H255].
      assert (Hq : (factor * inject_Z v == inject_Z v)%Q) by (rewrite E1; ring).
      rewrite (Qfloor_comp _ _ Hq), Qfloor_Z. lia. }
    rewrite !Hz by assumption. reflexivity.
Qed.

(** X15.  Brightness with a factor between 0 and 1 dims an 8-bit image:
    no channel value is raised, none falls below 0, and each is
    [factor * v] cut to an integer, less than 2 away from it. *)
Theorem brightness_scales s image factor w h px :
  mem s !! image = Some (PILImage w h px) ->
  length px = (w * h)%nat ->
  Forall u8_pixel px ->
  (0 <= factor)%Q -> (factor <= 1)%Q ->
  exists l s' px',
    adjust_brightness image factor s = (inr l, s') /\
    mem s' !! l = Some (PILImage w h px') /\
    Forall2 (on_channels (fun v r =>
               0 <= r <= v /\ (Rabs (IZR r - Q2R factor * IZR v) < 2)%R))
            px px'.
Proof.
  intros Himg Hlen Hpx Hf0 Hf1.
  destruct (adjust_brightness_pixels s image factor w h px Himg Hlen Hpx Hf0)
    as (l & s' & Hrun & Hl).
  exists l, s'. eexists. split; [exact Hrun|]. split; [exact Hl|].
  assert (Hch : forall v, u8 v ->
            0 <= Z.min 255 (Qfloor (factor * inject_Z v)) <= v /\
            (Rabs (IZR (Z.min 255 (Qfloor (factor * inject_Z v))) - Q2R factor * IZR v) < 2)%R).
  { intros v [Hv0 Hv255].
    assert (Qv0 : (0 <= inject_Z v)%Q) by (unfold Qle; simpl; lia).
    assert (Hlo : (0 <= factor * inject_Z v)%Q) by (apply Qmult_le_0_compat; assumption).
    assert (Hhi : (factor * inject_Z v <= inject_Z v)%Q) by Lqa.nra.
    assert (F0 : 0 <= Qfloor (factor * inject_Z v)).
    { change 0 with (Qfloor 0). apply Qfloor_resp_le. exact Hlo. }
    assert (Fv : Qfloor (factor * inject_Z v) <= v).
    { rewrite <- (Qfloor_Z v) at 2. apply Qfloor_resp_le. exact Hhi. }
    replace (Z.min 255 (Qfloor (factor * inject_Z v)))
      with (Qfloor (factor * inject_Z v)) by lia.
    split; [lia|].
    pose proof (Qle_Rle _ _ (Qfloor_le (factor * inject_Z v))) as H1.
    pose proof (Qlt_Rlt _ _ (Qlt_floor (factor * inject_Z v))) as H2.
    rewrite Q2R_inject_Z, Q2R_mult, Q2R_inject_Z in H1, H2.
    rewrite plus_IZR in H2.
    apply Rabs_def1; lra. }
  clear Himg Hlen Hrun Hl.
  induction Hpx as [|[[r g] b] px (Hr & Hg & Hb) _ IH]; [constructor|].
  cbn [map pmap]. constructor; [|exact IH].
  cbn [on_channels]. auto.
Qed.

(** X16.  Every pass with a choice 1 to 7 that completes leaves the flag
    set and ends by printing the confirmation and showing the image that is
    now current. *)
Theorem adjustment_is_confirmed_and_shown ses s choice rest ses' s' :
  stdin s = choice :: rest ->
  In choice ["1"; "2"; "3"; "4"; "5"; "6"; "7"] ->
  iteration ses s = (inr (Some ses'), s') ->
  modified ses' = true /\
  exists w h px evs,
    mem s' !! current ses' = Some (PILImage w h px) /\
    out s' = evs ++ [Print "Applied."; Show w h px].
Proof.
  intros Hin H17 Hrun.
  apply iteration_inv in Hrun as (c & r & s2 & Hin' & Hne & Hd & Hc).
  rewrite Hin in Hin'. injection Hin' as <- <-.
  pose proof (dispatch_adjusts _ _ _ _ _ H17 Hd) as Hm.
  split; [exact Hm|].
  unfold confirm in Hc. rewrite Hm in Hc.
  apply bind_inv in Hc as ([] & s3 & Hp & Hshow).
  rewrite print_run in Hp. injection Hp as <-.
  unfold Image_show in Hshow.
  apply bind_inv in Hshow as (o & s4 & Ho & Hemit).
  unfold deref in Ho.
  destruct (mem (say s2 [Print "Applied."]) !! current ses') as [o'|] eqn:El;
    [|discriminate].
  injection Ho as <- <-.
  destruct o' as [w h px | | |]; try discriminate.
  unfold emit in Hemit. injection Hemit as <-.
  exists w, h, px, (out s2). split; [exact El|].
  cbn [out say]. rewrite <- app_assoc. reflexivity.
Qed.

End MorePassProperties.

(** ** Concrete runs of the further properties *)

Lemma session_keeps_image_size_witness :
  mem (snd (main (mkSys [] ["in.png"; "3"; "0.5"; "0"] []))) !! 0%nat
  = Some (PILImage 2 1 [(10, 20, 30); (200, 100, 50)]).
Proof.
  apply (@session_keeps_image_size sample_lib sample_rt (mkSys [] ["in.png"; "3"; "0.5"; "0"] [])
           "in.png" ["3"; "0.5"; "0"] 2%nat 1%nat [(10, 20, 30); (200, 100, 50)]
           _ _ eq_refl eq_refl (surjective_pairing _)).
Defined.

Lemma main_returns_only_on_exit_witness :
  exists path lines,
    ["in.png"; "8"; "0"; "left over"] = path :: lines /\
    (((exists e, open_rgb path = inl e) /\
      stdin (snd (main (mkSys [] ["in.png"; "8"; "0"; "left over"] []))) = lines) \/
     exists pre,
       lines = pre ++ "0" :: stdin (snd (main (mkSys [] ["in.png"; "8"; "0"; "left over"] [])))).
Proof.
  assert (H : main (mkSys [] ["in.png"; "8"; "0"; "left over"] [])
              = (inr (Some tt),
                 snd (main (mkSys [] ["in.png"; "8"; "0"; "left over"] []))))
    by (vm_compute; reflexivity).
  apply (proj2 (@main_returns_only_on_exit sample_lib sample_rt _ _ _ H)).
Defined.

Lemma pass_saves_only_when_asked_witness :
  exists evs,
    out (snd (iteration (mkSession 0%nat true) (mkSys [PILImage 1 1 [(10, 20, 30)]] ["8"] [])))
    = [] ++ evs /\
    (Exists is_save evs -> "8" = "9" /\ true = true).
Proof.
  apply (@pass_saves_only_when_asked sample_lib sample_rt (mkSession 0%nat true)
           (mkSys [PILImage 1 1 [(10, 20, 30)]] ["8"] []) "8" [] 1%nat 1%nat [(10, 20, 30)]
           (fst (iteration (mkSession 0%nat true)
                           (mkSys [PILImage 1 1 [(10, 20, 30)]] ["8"] [])))).
  - reflexivity.
  - reflexivity.
  - apply surjective_pairing.
Defined.

Lemma session_without_9_writes_nothing_witness :
  exists evs,
    out (snd (main (mkSys [] ["in.png"; "2"; "0"] []))) = [] ++ evs /\
    Forall (fun e => ~ is_save e) evs.
Proof.
  eapply (@session_without_9_writes_nothing sample_lib sample_rt (mkSys [] ["in.png"; "2"; "0"] [])
           "in.png" ["2"; "0"] _ _ eq_refl).
  - simpl. intros [H | [H | []]]; discriminate.
  - apply surjective_pairing.
Defined.

Lemma unparsable_number_ends_run_witness :
  iteration (mkSession 0%nat false) (mkSys [PILImage 1 1 [(10, 20, 30)]] ["4"; "a lot"; "0"] [])
  = (inl (ValueError "could not convert string to float: a lot"),
     mkSys [PILImage 1 1 [(10, 20, 30)]] ["0"]
           [Print menu; Prompt "Choose: "; Prompt "Contrast [1]: "]).
Proof.
  apply (@unparsable_number_ends_run sample_lib sample_rt (mkSession 0%nat false)
           (mkSys [PILImage 1 1 [(10, 20, 30)]] ["4"; "a lot"; "0"] [])
           "4" "Contrast [1]: " "a lot" ["0"]
           (ValueError "could not convert string to float: a lot")
           eq_refl eq_refl eq_refl).
Defined.

Lemma negative_gamma_ends_run_witness :
  exists s',
    iteration (mkSession 0%nat false)
              (mkSys [PILImage 1 1 [(10, 20, 30)]] ["1"; "-1"; "0"] [])
    = (inl (ValueError "Gamma should be a non-negative real number."), s') /\
    mem s' !! 0%nat = Some (PILImage 1 1 [(10, 20, 30)]) /\
    out s' = [] ++ [Print menu; Prompt "Choose: "; Prompt "Gamma [1]: "].
Proof.
  apply (negative_gamma_ends_run (mkSession 0%nat false)
           (mkSys [PILImage 1 1 [(10, 20, 30)]] ["1"; "-1"; "0"] [])
           "-1" ["0"] (Qopp (Qmake 1 1)) 1%nat 1%nat [(10, 20, 30)]);
    reflexivity.
Defined.

Lemma failed_save_ends_run_witness :
  @iteration sample_lib readonly_rt (mkSession 0%nat true)
             (mkSys [PILImage 1 1 [(10, 20, 30)]] ["9"; "out.png"; "0"] [])
  = (inl (OtherError "Permission denied: out.png"),
     mkSys [PILImage 1 1 [(10, 20, 30)]] ["0"]
           [Print menu; Prompt "Choose: "; Prompt "Save as: "]).
Proof.
  apply (@failed_save_ends_run sample_lib readonly_rt (mkSession 0%nat true)
           (mkSys [PILImage 1 1 [(10, 20, 30)]] ["9"; "out.png"; "0"] [])
           "out.png" ["0"] 1%nat 1%nat [(10, 20, 30)]
           (OtherError "Permission denied: out.png"));
    reflexivity.
Defined.

Lemma second_save_finds_nothing_witness :
  exists ses1 s1,
    iteration (mkSession 0%nat true)
              (mkSys [PILImage 1 1 [(10, 20, 30)]] ["9"; "a.jpg"; "9"; "0"] [])
    = (inr (Some ses1), s1) /\
    iteration ses1 s1
    = (inr (Some ses1),
       mkSys [PILImage 1 1 [(10, 20, 30)]] ["0"]
             [Print menu; Prompt "Choose: "; Prompt "Save as: ";
              Save "a.jpg" [("quality", OInt 100); ("optimize", OBool true);
                            ("subsampling", OInt 0)] 1 1 [(10, 20, 30)];
              Print "Saved: a.jpg";
              Print menu; Prompt "Choose: "; Print "Nothing to save."]).
Proof.
  apply (second_save_finds_nothing (mkSession 0%nat true)
           (mkSys [PILImage 1 1 [(10, 20, 30)]] ["9"; "a.jpg"; "9"; "0"] [])
           "a.jpg" ["0"] 1%nat 1%nat [(10, 20, 30)]);
    reflexivity.
Defined.

Lemma bare_name_is_its_own_extension_witness :
  save_options "PNG" 100 = save_options "picture.PNG" 100.
Proof.
  apply (bare_name_is_its_own_extension "PNG" "picture" 100). reflexivity.
Defined.

Lemma gamma_curve_is_monotone_witness :
  exists (curve : Z -> Z) l s',
    apply_gamma 0%nat (Qmake 11 5) (one_pixel (10, 20, 30)) = (inr l, s') /\
    mem s' !! l = Some (PILImage 1 1 (map (pmap curve) [(10, 20, 30)])) /\
    (forall u v, 0 <= u -> u <= v -> v <= 255 -> curve u <= curve v) /\
    curve 0 = 0 /\ curve 255 = 255.
Proof.
  apply (gamma_curve_is_monotone (one_pixel (10, 20, 30)) 0%nat (Qmake 11 5) 1%nat 1%nat
           [(10, 20, 30)]); reflexivity.
Defined.

Lemma gamma_zero_is_white_witness :
  exists l s',
    apply_gamma 0%nat 0 (one_pixel (10, 20, 30)) = (inr l, s') /\
    mem s' !! l = Some (PILImage 1 1 [(255, 255, 255)]).
Proof.
  apply (gamma_zero_is_white (one_pixel (10, 20, 30)) 0%nat 0 1%nat 1%nat [(10, 20, 30)]);
    reflexivity.
Defined.

Lemma exposure_curve_is_monotone_witness :
  exists (curve : Z -> Z) l s',
    adjust_exposure 0%nat 2 (one_pixel (10, 20, 30)) = (inr l, s') /\
    mem s' !! l = Some (PILImage 1 1 (map (pmap curve) [(10, 20, 30)])) /\
    (forall u v, 0 <= u -> u <= v -> v <= 255 -> curve u <= curve v) /\
    curve 0 = 0.
Proof.
  apply (exposure_curve_is_monotone (one_pixel (10, 20, 30)) 0%nat 2 1%nat 1%nat
           [(10, 20, 30)]).
  - reflexivity.
  - discriminate.
Defined.

Lemma exposure_nonpositive_gain_is_black_witness :
  exists l s',
    adjust_exposure 0%nat 0 (one_pixel (10, 20, 30)) = (inr l, s') /\
    mem s' !! l = Some (PILImage 1 1 [(0, 0, 0)]).
Proof.
  apply (exposure_nonpositive_gain_is_black (one_pixel (10, 20, 30)) 0%nat 0 1%nat 1%nat
           [(10, 20, 30)]).
  - reflexivity.
  - repeat constructor; unfold u8; lia.
  - discriminate.
Defined.

Lemma enhance_zero_is_degenerate_witness :
  exists l s',
    adjust_brightness 0%nat 0 (one_pixel (10, 20, 30)) = (inr l, s') /\
    mem s' !! l = Some (PILImage 1 1 [(0, 0, 0)]).
Proof.
  apply (enhance_zero_is_degenerate (one_pixel (10, 20, 30)) 0%nat 1%nat 1%nat
           [(10, 20, 30)] 0); reflexivity.
Defined.

Lemma brightness_scales_witness :
  exists l s' px',
    adjust_brightness 0%nat (Qmake 1 2) (one_pixel (10, 20, 201)) = (inr l, s') /\
    mem s' !! l = Some (PILImage 1 1 px') /\
    Forall2 (on_channels (fun v r =>
               0 <= r <= v /\ (Rabs (IZR r - Q2R (Qmake 1 2) * IZR v) < 2)%R))
            [(10, 20, 201)] px'.
Proof.
  apply (brightness_scales (one_pixel (10, 20, 201)) 0%nat (Qmake 1 2) 1%nat 1%nat
           [(10, 20, 201)]).
  - reflexivity.
  - reflexivity.
  - repeat constructor; unfold u8; lia.
  - discriminate.
  - discriminate.
Defined.

Lemma adjustment_is_confirmed_and_shown_witness :
  modified (mkSession 2%nat true) = true /\
  exists w h px evs,
    [PILImage 1 1 [(10, 20, 30)]; PILImage 1 1 [(0, 0, 0)]; PILImage 1 1 [(5, 10, 15)]]
      !! 2%nat = Some (PILImage w h px) /\
    [Print menu; Prompt "Choose: "; Prompt "Brightness [1]: "; Print "Applied.";
     Show 1 1 [(5, 10, 15)]]
    = evs ++ [Print "Applied."; Show w h px].
Proof.
  apply (adjustment_is_confirmed_and_shown (mkSession 0%nat false)
           (mkSys [PILImage 1 1 [(10, 20, 30)]] ["3"; "0.5"] []) "3" ["0.5"]
           (mkSession 2%nat true)
           (mkSys [PILImage 1 1 [(10, 20, 30)]; PILImage 1 1 [(0, 0, 0)];
                   PILImage 1 1 [(5, 10, 15)]] []
                  [Print menu; Prompt "Choose: "; Prompt "Brightness [1]: ";
                   Print "Applied."; Show 1 1 [(5, 10, 15)]])).
  - reflexivity.
  - simpl. tauto.
  - vm_compute. reflexivity.
Defined.
